(** * xref_stripper: rewriting of unresolvable cross-reference tags

    A shallow embedding of [GoRogue.Docs/xref_stripper.py].  The script asks
    for confirmation, walks the C# sources, and in every [.cs] file replaces
    every match of two regular expressions by the first capture group.

    Python [str] values are sequences of Unicode code points; file contents
    are bytes.  Both are lists of [N] here. *)

From Stdlib Require Import NArith Ascii String List Lia Bool.
From stdpp Require Import base list strings gmap.

Open Scope N_scope.
Open Scope nat_scope.
Open Scope list_scope.

(* ================================================================== *)
(** ** Text *)

Definition char := N.
Definition text := list char.

(** Code points of an ASCII literal, used to write patterns and examples. *)
Definition str (s : string) : text := map N_of_ascii (list_ascii_of_string s).

(** The double quote, U+0022.  Comments show it as a single quote. *)
Definition dq : text := [34%N].

Definition LF : char := 10%N.

(** [\s] on a [str] pattern is [Py_UNICODE_ISSPACE]: the characters of
    bidirectional type WS, B or S, or of category Zs. *)
Definition is_space (c : char) : bool :=
  ((9 <=? c) && (c <=? 13) || (28 <=? c) && (c <=? 32)
   || (c =? 133) || (c =? 160) || (c =? 5760)
   || (8192 <=? c) && (c <=? 8202)
   || (c =? 8232) || (c =? 8233) || (c =? 8239) || (c =? 8287)
   || (c =? 12288))%N.

(** [.] without [re.DOTALL] is every character but the line feed. *)
Definition is_any (c : char) : bool := negb (c =? LF)%N.

(* ================================================================== *)
(** ** Regular expressions

    The two patterns only use literals, the lazy repeats [\s*?] and [.+?],
    and one capture group.  A pattern is the sequence of its items; the group
    is delimited by the two marks the engine records ([MARK 0], [MARK 1]). *)

Inductive node : Type :=
  | Lit (c : char)        (* a literal character, also [\.] and [\/] *)
  | SpaceMinStar          (* [\s*?] *)
  | AnyMinPlus            (* [.+?] *)
  | Mark (k : nat).       (* group boundary: 0 opens group 1, 1 closes it *)

Definition regex := list node.

Definition lits (s : string) : regex := map Lit (str s).

(** Recorded group boundaries, as offsets from the start of the match. *)
Definition marks : Type := option nat * option nat.

Definition no_marks : marks := (None, None).

Definition set_mark (k i : nat) (mk : marks) : marks :=
  match k with
  | 0 => (Some i, snd mk)
  | _ => (fst mk, Some i)
  end.

(** A lazy repeat of the character class [p] before the rest [k] of the
    pattern: first try the rest, and take one more character only when that
    fails. *)
Fixpoint lazy_more (p : char -> bool)
    (k : text -> nat -> marks -> option (nat * marks))
    (s : text) (i : nat) (mk : marks) {struct s} : option (nat * marks) :=
  match k s i mk with
  | Some r => Some r
  | None =>
      match s with
      | x :: s' => if p x then lazy_more p k s' (S i) mk else None
      | [] => None
      end
  end.

(** [m re s i mk]: match [re] against [s], which sits at offset [i] from the
    start of the attempt.  The result is the end offset and the marks. *)
Fixpoint m (re : regex) : text -> nat -> marks -> option (nat * marks) :=
  match re with
  | [] => fun _ i mk => Some (i, mk)
  | Lit c :: re' => fun s i mk =>
      match s with
      | x :: s' => if (x =? c)%N then m re' s' (S i) mk else None
      | [] => None
      end
  | SpaceMinStar :: re' => lazy_more is_space (m re')
  | AnyMinPlus :: re' => fun s i mk =>
      match s with
      | x :: s' => if is_any x then lazy_more is_any (m re') s' (S i) mk
                   else None
      | [] => None
      end
  | Mark k :: re' => fun s i mk => m re' s i (set_mark k i mk)
  end.

(** A match object: the text the attempt started at, the end offset and the
    marks.  Offsets are relative to the start of the match. *)
Record match_obj : Type := MatchObj {
  mo_string : text;
  mo_end : nat;
  mo_marks : marks
}.

(** [match_obj.group(1)]: the slice between the two marks; a group that did
    not take part contributes nothing to the substitution. *)
Definition group1 (mo : match_obj) : text :=
  match mo_marks mo with
  | (Some a, Some b) => take (b - a) (drop a (mo_string mo))
  | _ => []
  end.

(** One match attempt at the start of [s]. *)
Definition match_at (re : regex) (s : text) : option match_obj :=
  match m re s 0 no_marks with
  | Some (j, mk) => Some (MatchObj s j mk)
  | None => None
  end.

(** [re.sub(re, repl, s)]: scan left to right; at each position try a match;
    a match is replaced by [repl] and the scan resumes at its end, otherwise
    the character is copied.  An empty match is replaced and the character
    after it copied; the end of the text is tried too.  [skip] counts the
    characters of the current match that are still to be passed over. *)
Fixpoint sub_from (re : regex) (repl : match_obj -> text) (skip : nat)
    (s : text) : text :=
  match s with
  | [] =>
      match skip, match_at re [] with
      | 0, Some mo => repl mo
      | _, _ => []
      end
  | x :: s' =>
      match skip with
      | S k => sub_from re repl k s'
      | 0 =>
          match match_at re s with
          | Some mo =>
              match mo_end mo with
              | 0 => repl mo ++ x :: sub_from re repl 0 s'
              | S k => repl mo ++ sub_from re repl k s'
              end
          | None => x :: sub_from re repl 0 s'
          end
      end
  end.

Definition re_sub (re : regex) (repl : match_obj -> text) (s : text) : text :=
  sub_from re repl 0 s.

(* ================================================================== *)
(** ** The script *)

(** [<\s*?see\s*?cref\s*?=\s*?'(PREFIX\..+?)'\s*?\/\s*?>] *)
Definition cref_regex (prefix : string) : regex :=
  lits "<" ++ [SpaceMinStar] ++ lits "see" ++ [SpaceMinStar] ++ lits "cref"
  ++ [SpaceMinStar] ++ lits "=" ++ [SpaceMinStar] ++ map Lit dq
  ++ [Mark 0] ++ lits prefix ++ lits "." ++ [AnyMinPlus] ++ [Mark 1]
  ++ map Lit dq ++ [SpaceMinStar] ++ lits "/" ++ [SpaceMinStar] ++ lits ">".

Definition CREF_REGEXES : list regex :=
  [cref_regex "SadRogue"; cref_regex "Troschuetz"].

Definition convert_to_match (match_obj : match_obj) : text :=
  group1 match_obj.

(** The substitution loop of [main]. *)
Definition rewrite (file_data : text) : text :=
  fold_left (fun data regex => re_sub regex convert_to_match data)
    CREF_REGEXES file_data.

(* ================================================================== *)
(** ** UTF-8

    [bytes.decode('UTF-8')] and [str.encode('UTF-8')] with the default
    strict error handling. *)

Definition byte := N.
Definition bytes := list byte.

Definition is_cont (b : byte) : bool := ((128 <=? b) && (b <=? 191))%N.

Definition cont (b : byte) : N := (b - 128)%N.

Fixpoint decode_utf8 (bs : bytes) : option text :=
  match bs with
  | [] => Some []
  | b0 :: r0 =>
      if (b0 <? 128)%N then cons b0 <$> decode_utf8 r0
      else if ((194 <=? b0) && (b0 <=? 223))%N then
        match r0 with
        | b1 :: r1 =>
            if is_cont b1
            then cons ((b0 - 192) * 64 + cont b1)%N <$> decode_utf8 r1
            else None
        | _ => None
        end
      else if ((224 <=? b0) && (b0 <=? 239))%N then
        match r0 with
        | b1 :: b2 :: r2 =>
            if is_cont b1 && is_cont b2
               && negb ((b0 =? 224) && (b1 <? 160))%N    (* overlong *)
               && negb ((b0 =? 237) && (160 <=? b1))%N   (* surrogate *)
            then cons ((b0 - 224) * 4096 + cont b1 * 64 + cont b2)%N
                   <$> decode_utf8 r2
            else None
        | _ => None
        end
      else if ((240 <=? b0) && (b0 <=? 244))%N then
        match r0 with
        | b1 :: b2 :: b3 :: r3 =>
            if is_cont b1 && is_cont b2 && is_cont b3
               && negb ((b0 =? 240) && (b1 <? 144))%N    (* overlong *)
               && negb ((b0 =? 244) && (144 <=? b1))%N   (* above U+10FFFF *)
            then cons ((b0 - 240) * 262144 + cont b1 * 4096
                       + cont b2 * 64 + cont b3)%N
                   <$> decode_utf8 r3
            else None
        | _ => None
        end
      else None
  end.

Definition encode_char (c : char) : option bytes :=
  if (c <? 128)%N then Some [c]
  else if (c <? 2048)%N then Some [192 + c / 64; 128 + c mod 64]%N
  else if (c <? 65536)%N then
    if ((55296 <=? c) && (c <=? 57343))%N then None   (* lone surrogate *)
    else Some [224 + c / 4096; 128 + (c / 64) mod 64; 128 + c mod 64]%N
  else if (c <? 1114112)%N then
    Some [240 + c / 262144; 128 + (c / 4096) mod 64;
          128 + (c / 64) mod 64; 128 + c mod 64]%N
  else None.

Fixpoint encode_utf8 (s : text) : option bytes :=
  match s with
  | [] => Some []
  | c :: s' =>
      match encode_char c, encode_utf8 s' with
      | Some b, Some bs => Some (b ++ bs)
      | _, _ => None
      end
  end.

(* ================================================================== *)
(** ** The world the script runs in *)

(** A regular file: its content and whether this process may read and write
    it. *)
Record file : Type := File {
  f_data : bytes;
  f_readable : bool;
  f_writable : bool
}.

(** What [os.walk] sees under a directory: the names of the entries that are
    not directories, and the sub-directories. *)
#[local] Set Warnings "-register-all".
Inductive dir : Type :=
  | Dir (files : list string) (subdirs : list (string * dir)).

#[local] Set Warnings "register-all".

Inductive mode : Type := RB | WB.

Inductive exn : Type :=
  | EOFError
  | OSError (path : string)
  | UnicodeDecodeError
  | UnicodeEncodeError.

(** The tree under [CS_PATH] is only read by the script, so it is kept apart
    from the file contents.  A path names one file: links are not modelled. *)
Record world : Type := World {
  w_tree : option dir;            (* the directory at [CS_PATH], if any *)
  w_fs : gmap string file;        (* file contents by path *)
  w_tty : bool;                   (* standard input and output are terminals *)
  w_stdin : list text;            (* the lines still to be read *)
  w_stdout : list text;           (* what was written, in order *)
  w_stderr : list text;           (* what went to standard error, in order *)
  w_opened : list (string * mode) (* every [open], in order *)
}.

Inductive result (A : Type) : Type :=
  | Ok (a : A)
  | Raise (e : exn).
Arguments Ok {A} a.
Arguments Raise {A} e.

Definition IO (A : Type) : Type := world -> result A * world.

Definition ret {A} (a : A) : IO A := fun w => (Ok a, w).

Definition raise {A} (e : exn) : IO A := fun w => (Raise e, w).

Definition bind {A B} (c : IO A) (k : A -> IO B) : IO B :=
  fun w =>
    match c w with
    | (Ok a, w') => k a w'
    | (Raise e, w') => (Raise e, w')
    end.

Notation "x <- c ;; k" := (bind c (fun x => k))
  (at level 100, c at next level, right associativity).
Notation "c ;;; k" := (bind c (fun _ => k))
  (at level 100, right associativity).

(** A [for] loop: the first exception ends it. *)
Fixpoint for_each {A} (l : list A) (body : A -> IO unit) : IO unit :=
  match l with
  | [] => ret tt
  | a :: l' => body a ;;; for_each l' body
  end.

Definition write_stdout (s : text) : IO unit := fun w =>
  (Ok tt, World (w_tree w) (w_fs w) (w_tty w) (w_stdin w) (w_stdout w ++ [s])
            (w_stderr w) (w_opened w)).

Definition write_stderr (s : text) : IO unit := fun w =>
  (Ok tt, World (w_tree w) (w_fs w) (w_tty w) (w_stdin w) (w_stdout w)
            (w_stderr w ++ [s]) (w_opened w)).

(** Where [input] puts its prompt.  When standard input and standard output
    are both terminals the interpreter reads the line itself and prints the
    prompt on standard error (the script does not load [readline]);
    otherwise the prompt is written to [sys.stdout]. *)
Definition write_prompt (prompt : text) : IO unit := fun w =>
  if w_tty w then write_stderr prompt w else write_stdout prompt w.

(** [input(prompt)]: write the prompt, read one line without its newline;
    at the end of the input [EOFError] is raised. *)
Definition input (prompt : text) : IO text :=
  write_prompt prompt ;;;
  fun w =>
    match w_stdin w with
    | line :: rest =>
        (Ok line, World (w_tree w) (w_fs w) (w_tty w) rest (w_stdout w)
                    (w_stderr w) (w_opened w))
    | [] => (Raise EOFError, w)
    end.

(** [print()] *)
Definition print_newline : IO unit := write_stdout [LF].

Definition log_open (path : string) (md : mode) : IO unit := fun w =>
  (Ok tt, World (w_tree w) (w_fs w) (w_tty w) (w_stdin w) (w_stdout w)
            (w_stderr w) (w_opened w ++ [(path, md)])).

Definition set_file (path : string) (f : file) : IO unit := fun w =>
  (Ok tt, World (w_tree w) (<[path := f]> (w_fs w)) (w_tty w) (w_stdin w)
            (w_stdout w) (w_stderr w) (w_opened w)).

(** [with open(path, 'rb') as file: file.read()] *)
Definition read_binary (path : string) : IO bytes :=
  log_open path RB ;;;
  fun w =>
    match w_fs w !! path with
    | Some f => if f_readable f then (Ok (f_data f), w)
                else (Raise (OSError path), w)
    | None => (Raise (OSError path), w)
    end.

(** [open(path, 'wb')]: the file is created or truncated when it is opened. *)
Definition open_wb (path : string) : IO file :=
  log_open path WB ;;;
  fun w =>
    match w_fs w !! path with
    | Some f =>
        if f_writable f
        then (set_file path (File [] (f_readable f) true) ;;;
              ret (File [] (f_readable f) true)) w
        else (Raise (OSError path), w)
    | None => (set_file path (File [] true true) ;;; ret (File [] true true)) w
    end.

(** [write.write(data)] on a freshly opened file, then the close. *)
Definition write_all (path : string) (f : file) (data : bytes) : IO unit :=
  set_file path (File data (f_readable f) (f_writable f)).

Definition lift_option {A} (e : exn) (o : option A) : IO A :=
  match o with
  | Some a => ret a
  | None => raise e
  end.

(* ------------------------------------------------------------------ *)
(** *** Paths *)

Definition startswith (s pre : string) : bool := String.prefix pre s.

Definition endswith (s suf : string) : bool :=
  (String.length suf <=? String.length s)
  && String.eqb (substring (String.length s - String.length suf)
                   (String.length suf) s) suf.

(** [os.path.join] of [posixpath], one component at a time. *)
Definition join2 (path b : string) : string :=
  if startswith b "/" then b
  else if String.eqb path "" || endswith path "/" then (path +:+ b)%string
  else (path +:+ "/" +:+ b)%string.

Definition os_path_join (a : string) (p : list string) : string :=
  fold_left join2 p a.

(** [os.walk(top)], top-down: the directory itself, then every sub-directory
    in turn. *)
Fixpoint os_walk (top : string) (d : dir)
    : list (string * list string * list string) :=
  match d with
  | Dir files subdirs =>
      (top, map fst subdirs, files)
      :: flat_map (fun nd => os_walk (os_path_join top [fst nd]) (snd nd))
           subdirs
  end.

(* ------------------------------------------------------------------ *)
(** *** The functions of the script *)

Definition PROMPT : text :=
  str ("WARNING: This script intends for you to use git commands to reset .cs files "
       +:+ "after docs generation is complete, in order to undo the script's changes.  "
       +:+ "Ensure ALL changes to .CS files are committed and pushed first!  "
       +:+ "Continue? (Y/N): ").

(** Confirms the user is not going to erase work. *)
Definition confirm_continue_prompt : IO bool :=
  resp <- input PROMPT ;;
  print_newline ;;;
  ret (bool_decide (resp ∈ [str "y"; str "Y"])).

(** The body of the [if file_path.endswith('.cs')] of [main]: read and decode,
    substitute, open for writing, encode and write. *)
Definition process_file (file_path : string) : IO unit :=
  raw <- read_binary file_path ;;
  file_data <- lift_option UnicodeDecodeError (decode_utf8 raw) ;;
  let file_data := rewrite file_data in
  write <- open_wb file_path ;;
  out <- lift_option UnicodeEncodeError (encode_utf8 file_data) ;;
  write_all file_path write out.

Section Script.

(** The directory the script is in. *)
Variable FILE_PATH : string.

(** Path to check for CS files. *)
Definition CS_PATH : string := os_path_join FILE_PATH [".."; "GoRogue"]%string.

(** [os.walk(CS_PATH)]; a path that is no directory yields nothing. *)
Definition walk_cs_path : IO (list (string * list string * list string)) :=
  fun w =>
    (Ok match w_tree w with
        | Some d => os_walk CS_PATH d
        | None => []
        end, w).

Definition main : IO unit :=
  ok <- confirm_continue_prompt ;;
  if negb ok then ret tt
  else
    walk <- walk_cs_path ;;
    for_each walk (fun '(path, _, files) =>
      for_each files (fun name =>
        let file_path := os_path_join path [name] in
        if endswith file_path ".cs" then process_file file_path
        else ret tt)).

End Script.


(* ================================================================== *)
(** ** What a pattern denotes

    The set of texts a pattern matches in full, as a regular language.  It is
    the yardstick for 'a substring matching the pattern'. *)

Inductive lang : regex -> text -> Prop :=
  | lang_nil : lang [] []
  | lang_lit c re u : lang re u -> lang (Lit c :: re) (c :: u)
  | lang_space ws re u :
      forallb is_space ws = true -> lang re u ->
      lang (SpaceMinStar :: re) (ws ++ u)
  | lang_any x xs re u :
      is_any x = true -> forallb is_any xs = true -> lang re u ->
      lang (AnyMinPlus :: re) (x :: xs ++ u)
  | lang_mark k re u : lang re u -> lang (Mark k :: re) u.

(** [t] has a substring in [L]. *)
Definition occurs (L : text -> Prop) (t : text) : Prop :=
  exists a u b, t = a ++ u ++ b /\ L u.

(** [re.search]: is there a position where a match attempt succeeds? *)
Fixpoint search (re : regex) (s : text) : bool :=
  match match_at re s with
  | Some _ => true
  | None =>
      match s with
      | [] => false
      | _ :: s' => search re s'
      end
  end.

(** Both marks, when set, are at most [n]. *)
Definition marks_le (mk : marks) (n : nat) : Prop :=
  (forall a, fst mk = Some a -> a <= n) /\ (forall b, snd mk = Some b -> b <= n).

(** The shape of what the matcher guarantees about offsets and marks. *)
Definition bounded (k : text -> nat -> marks -> option (nat * marks)) : Prop :=
  forall s i mk j mk',
    k s i mk = Some (j, mk') -> marks_le mk i ->
    i <= j /\ j <= i + length s /\ marks_le mk' j.

(** A successful attempt consumed a text of [L]. *)
Definition sound_for (L : text -> Prop)
    (k : text -> nat -> marks -> option (nat * marks)) : Prop :=
  forall s i mk j mk',
    k s i mk = Some (j, mk') ->
    exists u r, s = u ++ r /\ j = i + length u /\ L u.

(* ================================================================== *)
(** ** The tags the patterns are written for *)

(** The allow-listed namespaces. *)
Definition PREFIXES : list string := ["SadRogue"; "Troschuetz"]%string.

(** White space at the six places where the patterns allow it. *)
Record spacing : Type := Spacing {
  sp_see : text;     (* between [<] and [see] *)
  sp_cref : text;    (* between [see] and [cref] *)
  sp_eq : text;      (* between [cref] and [=] *)
  sp_quote : text;   (* between [=] and the opening quote *)
  sp_slash : text;   (* between the closing quote and [/] *)
  sp_gt : text       (* between [/] and [>] *)
}.

Definition spaces (sp : spacing) : bool :=
  forallb is_space (sp_see sp) && forallb is_space (sp_cref sp)
  && forallb is_space (sp_eq sp) && forallb is_space (sp_quote sp)
  && forallb is_space (sp_slash sp) && forallb is_space (sp_gt sp).

Definition tag_head (sp : spacing) : text :=
  str "<" ++ sp_see sp ++ str "see" ++ sp_cref sp ++ str "cref" ++ sp_eq sp
  ++ str "=" ++ sp_quote sp ++ dq.

Definition tag_tail (sp : spacing) : text :=
  dq ++ sp_slash sp ++ str "/" ++ sp_gt sp ++ str ">".

(** The self-closing tag [<see cref='q'/>] with the given white space. *)
Definition see_tag (sp : spacing) (q : text) : text :=
  tag_head sp ++ q ++ tag_tail sp.

(** [prefix.rest] *)
Definition qualified (prefix : string) (rest : text) : text :=
  str prefix ++ str "." ++ rest.

(** [s.startswith(p)] on texts. *)
Fixpoint text_startswith (s p : text) {struct p} : bool :=
  match p, s with
  | [] , _ => true
  | c :: p', x :: s' => (x =? c)%N && text_startswith s' p'
  | _ :: _, [] => false
  end.

Definition not_lt (c : char) : bool := negb (c =? 60)%N.

(** A character of the identifier after the namespace: no quote, no line
    feed, no [<]. *)
Definition ident_char (c : char) : bool :=
  is_any c && negb (c =? 34)%N && not_lt c.

Definition ident_ok (rest : text) : bool :=
  match rest with
  | [] => false
  | _ => forallb ident_char rest
  end.

(** What both patterns begin with: [<\s*?see\s*?cref]. *)
Definition OPENER : regex :=
  lits "<" ++ [SpaceMinStar] ++ lits "see" ++ [SpaceMinStar] ++ lits "cref".

(** What follows the opener in the pattern for [prefix]. *)
Definition CLOSER (prefix : string) : regex :=
  [SpaceMinStar] ++ lits "=" ++ [SpaceMinStar] ++ map Lit dq
  ++ [Mark 0] ++ lits prefix ++ lits "." ++ [AnyMinPlus] ++ [Mark 1]
  ++ map Lit dq ++ [SpaceMinStar] ++ lits "/" ++ [SpaceMinStar] ++ lits ">".

(** The pattern up to the opening quote, and from [.+?] on. *)
Definition head_regex : regex :=
  lits "<" ++ [SpaceMinStar] ++ lits "see" ++ [SpaceMinStar] ++ lits "cref"
  ++ [SpaceMinStar] ++ lits "=" ++ [SpaceMinStar] ++ map Lit dq.

Definition tail_regex : regex :=
  [AnyMinPlus] ++ [Mark 1]
  ++ map Lit dq ++ [SpaceMinStar] ++ lits "/" ++ [SpaceMinStar] ++ lits ">".

(** A text without any opener. *)
Definition inert (t : text) : bool := negb (search OPENER t).

(** The characters a pattern item can consume. *)
Definition node_accepts (n : node) (c : char) : bool :=
  match n with
  | Lit c' => (c =? c')%N
  | SpaceMinStar => is_space c
  | AnyMinPlus => is_any c
  | Mark _ => false
  end.

Definition accepts (re : regex) (c : char) : bool :=
  existsb (fun n => node_accepts n c) re.

(** [s] is empty or starts with a character that no opener can run into. *)
Definition stops (s : text) : bool :=
  match s with
  | [] => true
  | y :: _ => negb (accepts (tail OPENER) y)
  end.

(** The tag without its [<]. *)
Definition tag_body (sp : spacing) (q : text) : text := tail (see_tag sp q).

(** [q] is not in an allow-listed namespace. *)
Definition not_allowed (q : text) : bool :=
  forallb (fun prefix => negb (text_startswith q (qualified prefix [])))
    PREFIXES.

(** Texts in which every opener starts a well-formed tag: stretches without
    opener, between tags that are either allow-listed, with an identifier
    free of quotes, line feeds and [<], or in another namespace, with a
    quoted text free of [<]. *)
Inductive tame : text -> Prop :=
  | tame_plain pre : inert pre = true -> tame pre
  | tame_allowed pre prefix sp rest t :
      inert pre = true -> In prefix PREFIXES ->
      spaces sp = true -> ident_ok rest = true -> tame t ->
      tame (pre ++ see_tag sp (qualified prefix rest) ++ t)
  | tame_other pre sp q t :
      inert pre = true -> spaces sp = true ->
      forallb not_lt q = true -> not_allowed q = true -> tame t ->
      tame (pre ++ see_tag sp q ++ t).

(** [u in t] on texts. *)
Fixpoint text_contains (t u : text) : bool :=
  text_startswith t u
  || match t with
     | [] => false
     | _ :: t' => text_contains t' u
     end.

(** No white space anywhere it is optional, and one blank between [see] and
    [cref]: the usual way the tag is written. *)
Definition plain_spacing : spacing := Spacing [] (str " ") [] [] [] [].

(* ------------------------------------------------------------------ *)
(** *** Example texts *)

(** [<see cref='SadRogue.A'>x</see> ], a tag that is not self-closing. *)
Definition open_tag_text : text :=
  str "<see cref=" ++ dq ++ str "SadRogue.A" ++ dq ++ str ">x</see> ".

(** [<see cref='SadRogue.Foo.Bar'/>] *)
Definition foo_bar_tag : text :=
  see_tag plain_spacing (qualified "SadRogue" (str "Foo.Bar")).

(** [<see cref='System.String'/>] *)
Definition system_string_tag : text :=
  see_tag plain_spacing (str "System.String").

(** [<see cref='<see cref='SadRogue.X'/>'/>], a tag around a tag. *)
Definition nested_tag_text : text :=
  str "<see cref=" ++ dq
  ++ see_tag plain_spacing (qualified "SadRogue" (str "X"))
  ++ dq ++ str "/>".

(** White space of several kinds at all six places. *)
Definition wide_spacing : spacing :=
  Spacing (str " ") [9%N; 32%N] [160%N] [10%N] [12288%N] (str "  ").

(* ------------------------------------------------------------------ *)
(** *** What a run may touch *)

(** From [w] to [w'] only paths that end in [.cs] were opened, and only
    files at such paths changed. *)
Definition only_cs (w w' : world) : Prop :=
  (exists new, w_opened w' = w_opened w ++ new
               /\ forall p md, In (p, md) new -> endswith p ".cs" = true)
  /\ (forall p, endswith p ".cs" = false -> w_fs w' !! p = w_fs w !! p).

(** Every run of [c] stays within [R]. *)
Definition keeps (R : world -> world -> Prop) {A} (c : IO A) : Prop :=
  forall w, R w (snd (c w)).

(** ASCII text as bytes: bytes and code points coincide. *)
Definition ascii_bytes (s : string) : bytes := str s.

(** A tree with C# sources, a file with an upper-case extension and a
    sub-directory, below [/repo/GoRogue.Docs/../GoRogue]; the answer comes
    through a pipe. *)
Definition example_world (answer : text) : world :=
  World
    (Some (Dir ["Point.cs"; "Notes.CS"]%string
             [("Sub"%string, Dir ["Gen.cs"]%string [])]))
    (list_to_map
       [("/repo/GoRogue.Docs/../GoRogue/Point.cs"%string,
         File (ascii_bytes "// " ++ foo_bar_tag) true true);
        ("/repo/GoRogue.Docs/../GoRogue/Notes.CS"%string,
         File (ascii_bytes "// " ++ foo_bar_tag) true true);
        ("/repo/GoRogue.Docs/../GoRogue/Sub/Gen.cs"%string,
         File (ascii_bytes "// " ++ system_string_tag) true true)])
    false [answer] [] [] [].

(** The contents of the two end-to-end scenarios. *)
Definition point_before : bytes :=
  ascii_bytes "See also: <see cref=" ++ dq
  ++ ascii_bytes "SadRogue.Primitives.Point" ++ dq ++ ascii_bytes " />.".

Definition point_after : bytes :=
  ascii_bytes "See also: SadRogue.Primitives.Point.".

Definition generator_before : bytes :=
  ascii_bytes "<see cref=" ++ dq ++ ascii_bytes "Troschuetz.Random.IGenerator"
  ++ dq ++ ascii_bytes "/> and <see cref=" ++ dq ++ ascii_bytes "System.Int32"
  ++ dq ++ ascii_bytes "/>".

Definition generator_after : bytes :=
  ascii_bytes "Troschuetz.Random.IGenerator and <see cref=" ++ dq
  ++ ascii_bytes "System.Int32" ++ dq ++ ascii_bytes "/>".

(** A world with one file. *)
Definition one_file_world (path : string) (data : bytes) : world :=
  World None {[ path := File data true true ]} false [] [] [] [].


(* ================================================================== *)
(** ** Further notions, for the properties beyond the claims *)

(** A Unicode scalar value: a code point that is no surrogate.  These are
    the code points strict UTF-8 can carry. *)
Definition is_scalar (c : char) : bool :=
  ((c <? 55296) || (57343 <? c) && (c <? 1114112))%N.

(** The paths [main] passes to the file-processing branch: for every entry
    of the walk, in order, the joined paths that end in [.cs]. *)
Definition cs_paths (walk : list (string * list string * list string))
    : list string :=
  flat_map
    (fun '(path, _, files) =>
       List.filter (fun p => endswith p ".cs")
         (map (fun name => os_path_join path [name]) files))
    walk.

(** The walk [main] iterates over in world [w]. *)
Definition walk_of (FILE_PATH : string) (w : world)
    : list (string * list string * list string) :=
  match w_tree w with
  | Some d => os_walk (CS_PATH FILE_PATH) d
  | None => []
  end.

(** The world once the prompt was answered: the prompt was written, to
    standard error at a terminal and to standard output otherwise, one line
    was read and the newline was printed. *)
Definition answered (w : world) (rest : list text) : world :=
  World (w_tree w) (w_fs w) (w_tty w) rest
    (w_stdout w ++ (if w_tty w then [] else [PROMPT]) ++ [[LF]])
    (w_stderr w ++ (if w_tty w then [PROMPT] else []))
    (w_opened w).

(** The same world with standard input and output at a terminal. *)
Definition at_terminal (w : world) : world :=
  World (w_tree w) (w_fs w) true (w_stdin w) (w_stdout w) (w_stderr w)
    (w_opened w).

(** What a file holds as text, if it is there and is valid UTF-8. *)
Definition file_text (fs : gmap string file) (path : string) : option text :=
  match fs !! path with
  | Some f => decode_utf8 (f_data f)
  | None => None
  end.

(** A file [process_file] gets through: there, readable, writable and valid
    UTF-8. *)
Definition processable (fs : gmap string file) (path : string) : bool :=
  match fs !! path with
  | Some f =>
      f_readable f && f_writable f
      && match decode_utf8 (f_data f) with Some _ => true | None => false end
  | None => false
  end.

(** The opens of one processed file. *)
Definition opens_of (path : string) : list (string * mode) :=
  [(path, RB); (path, WB)].

Definition not_quote (c : char) : bool := negb (c =? 34)%N.

(** The console is as it was. *)
Definition same_console (w w' : world) : Prop :=
  w_stdout w' = w_stdout w /\ w_stdin w' = w_stdin w
  /\ w_stderr w' = w_stderr w /\ w_tty w' = w_tty w.

(** No name of the tree starts with a slash (a name of a directory entry
    holds no slash at all). *)
Fixpoint names_ok (d : dir) : bool :=
  match d with
  | Dir files subdirs =>
      forallb (fun name => negb (startswith name "/")) files
      && forallb (fun nd => negb (startswith (fst nd) "/") && names_ok (snd nd))
           subdirs
  end.

(** A tree in which the second of three sources is not valid UTF-8; the
    answer comes through a pipe. *)
Definition broken_world : world :=
  World
    (Some (Dir ["a.cs"; "b.cs"; "c.cs"]%string []))
    (list_to_map
       [("/repo/GoRogue.Docs/../GoRogue/a.cs"%string,
         File (ascii_bytes "// " ++ foo_bar_tag) true true);
        ("/repo/GoRogue.Docs/../GoRogue/b.cs"%string,
         File [47; 47; 32; 233]%N true true);
        ("/repo/GoRogue.Docs/../GoRogue/c.cs"%string,
         File (ascii_bytes "// " ++ foo_bar_tag) true true)])
    false [str "Y"] [] [] [].

Definition not_gt (c : char) : bool := negb (c =? 62)%N.
(* ================================================================== *)
(** ** The matcher *)

Lemma lazy_more_eq p k s i mk :
  lazy_more p k s i mk =
  match k s i mk with
  | Some r => Some r
  | None =>
      match s with
      | x :: s' => if p x then lazy_more p k s' (S i) mk else None
      | [] => None
      end
  end.
Proof. destruct s; reflexivity. Qed.

Lemma marks_le_mono mk i j : marks_le mk i -> i <= j -> marks_le mk j.
Proof.
  intros [Ha Hb] Hij; split; intros c Hc;
    [specialize (Ha c Hc) | specialize (Hb c Hc)]; lia.
Qed.

Lemma marks_le_set k i mk : marks_le mk i -> marks_le (set_mark k i mk) i.
Proof.
  intros [Ha Hb]; destruct k; split; simpl; intros c Hc;
    try (injection Hc as <-; lia); auto.
Qed.

Lemma marks_le_none i : marks_le no_marks i.
Proof. split; simpl; discriminate. Qed.

Lemma lazy_more_bounded p k : bounded k -> bounded (lazy_more p k).
Proof.
  intros Hk s; induction s as [|x s IH]; intros i mk j mk';
    rewrite lazy_more_eq; destruct (k _ i mk) as [[j0 mk0]|] eqn:E.
  - intros [= -> ->]; eauto.
  - discriminate.
  - intros [= -> ->]; eauto.
  - destruct (p x); [|discriminate].
    intros H Hm. apply IH in H; [|eapply marks_le_mono; eauto].
    simpl; destruct H as (? & ? & ?); split_and!; auto; lia.
Qed.

Lemma m_bounded re : bounded (m re).
Proof.
  induction re as [|[c| | |k] re IH]; simpl; unfold bounded in *.
  - intros s i mk j mk' [= -> ->] ?; split_and!; auto; lia.
  - intros [|x s] i mk j mk'; [discriminate|].
    destruct (x =? c)%N; [|discriminate].
    intros H Hm. apply IH in H; [|eapply marks_le_mono; eauto].
    simpl; destruct H as (? & ? & ?); split_and!; auto; lia.
  - exact (lazy_more_bounded _ _ IH).
  - intros [|x s] i mk j mk'; [discriminate|].
    destruct (is_any x); [|discriminate].
    intros H Hm. pose proof (lazy_more_bounded is_any _ IH) as IH'.
    unfold bounded in IH'. apply IH' in H; [|eapply marks_le_mono; eauto].
    simpl; destruct H as (? & ? & ?); split_and!; auto; lia.
  - intros s i mk j mk' H Hm. apply IH in H; auto using marks_le_set.
Qed.

(** *** Soundness: a successful attempt consumed a text of the language *)

Lemma lazy_more_sound p L k :
  sound_for L k ->
  forall s i mk j mk',
    lazy_more p k s i mk = Some (j, mk') ->
    exists ws u r, s = ws ++ u ++ r /\ forallb p ws = true
                   /\ j = i + length ws + length u /\ L u.
Proof.
  intros Hk s; induction s as [|x s IH]; intros i mk j mk';
    rewrite lazy_more_eq; destruct (k _ i mk) as [[j0 mk0]|] eqn:E;
    try discriminate.
  - intros [= -> ->]. apply Hk in E as (u & r & -> & -> & HL).
    exists [], u, r; simpl; split_and!; auto; lia.
  - intros [= -> ->]. apply Hk in E as (u & r & -> & -> & HL).
    exists [], u, r; simpl; split_and!; auto; lia.
  - destruct (p x) eqn:Hp; [|discriminate].
    intros H. apply IH in H as (ws & u & r & -> & Hws & -> & HL).
    exists (x :: ws), u, r; simpl; rewrite Hp, Hws; split_and!; auto; lia.
Qed.

Lemma m_sound re : sound_for (lang re) (m re).
Proof.
  induction re as [|[c| | |k] re IH]; simpl; unfold sound_for in *.
  - intros s i mk j mk' [= -> ->]. exists [], s; simpl.
    split_and!; auto using lang_nil; lia.
  - intros [|x s] i mk j mk'; [discriminate|].
    destruct (N.eqb_spec x c) as [->|]; [|discriminate].
    intros H. apply IH in H as (u & r & -> & -> & HL).
    exists (c :: u), r; simpl; split_and!; auto using lang_lit; lia.
  - intros s i mk j mk' H.
    apply (lazy_more_sound _ _ _ IH) in H as (ws & u & r & -> & Hws & -> & HL).
    exists (ws ++ u), r. rewrite <- app_assoc, length_app.
    split_and!; auto using lang_space; lia.
  - intros [|x s] i mk j mk'; [discriminate|].
    destruct (is_any x) eqn:Hx; [|discriminate].
    intros H.
    apply (lazy_more_sound _ _ _ IH) in H as (ws & u & r & -> & Hws & -> & HL).
    exists (x :: ws ++ u), r; simpl. rewrite <- app_assoc, length_app.
    split_and!; auto using lang_any; lia.
  - intros s i mk j mk' H. apply IH in H as (u & r & -> & -> & HL).
    exists u, r; split_and!; auto using lang_mark.
Qed.

(** *** Completeness: on a text that starts with a word of the language the
    attempt succeeds (the lazy search may stop at a shorter word) *)

Lemma lazy_more_complete p k ws s :
  forallb p ws = true ->
  (forall i mk, is_Some (k s i mk)) ->
  forall i mk, is_Some (lazy_more p k (ws ++ s) i mk).
Proof.
  intros Hws Hk; induction ws as [|x ws IH]; intros i mk;
    rewrite lazy_more_eq; simpl.
  - destruct (Hk i mk) as [r ->]; eauto.
  - simpl in Hws; apply andb_prop in Hws as [Hx Hws].
    destruct (k _ i mk); eauto. rewrite Hx; auto.
Qed.

Lemma m_complete re u :
  lang re u -> forall r i mk, is_Some (m re (u ++ r) i mk).
Proof.
  induction 1 as [|c re u _ IH|ws re u Hws _ IH|x xs re u Hx Hxs _ IH
                 |k re u _ IH]; intros r i mk; simpl.
  - eauto.
  - rewrite N.eqb_refl; auto.
  - rewrite <- app_assoc. apply lazy_more_complete; auto.
  - rewrite Hx, <- app_assoc. apply lazy_more_complete; auto.
  - auto.
Qed.

(* ================================================================== *)
(** ** Substitution *)

Section Sub.

Variable re : regex.
Variable repl : match_obj -> text.

Lemma sub_from_skip a s :
  sub_from re repl (length a) (a ++ s) = sub_from re repl 0 s.
Proof. induction a as [|x a IH]; simpl; auto. Qed.

Lemma re_sub_nomatch x s :
  match_at re (x :: s) = None ->
  re_sub re repl (x :: s) = x :: re_sub re repl s.
Proof. unfold re_sub; simpl; intros ->; reflexivity. Qed.

(** A match that covers exactly [u] is replaced and the scan goes on
    behind it. *)
Lemma re_sub_match u s mo :
  u <> [] ->
  match_at re (u ++ s) = Some mo -> mo_end mo = length u ->
  re_sub re repl (u ++ s) = repl mo ++ re_sub re repl s.
Proof.
  destruct u as [|x u]; [congruence|]; intros _ Hm He.
  unfold re_sub; simpl in *. rewrite Hm, He. f_equal. apply sub_from_skip.
Qed.

(** A stretch in which no attempt succeeds is copied. *)
Lemma re_sub_skip pre s :
  (forall a b, pre = a ++ b -> b <> [] -> match_at re (b ++ s) = None) ->
  re_sub re repl (pre ++ s) = pre ++ re_sub re repl s.
Proof.
  induction pre as [|x pre IH]; intros H; [reflexivity|].
  simpl. rewrite re_sub_nomatch.
  - f_equal. apply IH. intros a b -> Hb. apply (H (x :: a) b); auto.
  - apply (H [] (x :: pre)); auto.
Qed.

Lemma re_sub_id t :
  (forall a b, t = a ++ b -> match_at re b = None) ->
  re_sub re repl t = t.
Proof.
  induction t as [|x t IH]; intros H.
  - unfold re_sub; simpl. rewrite (H [] []); auto.
  - rewrite re_sub_nomatch; [|apply (H [] (x :: t)); auto].
    f_equal. apply IH. intros a b ->. apply (H (x :: a) b); auto.
Qed.

End Sub.

Lemma match_at_sound re s mo :
  match_at re s = Some mo ->
  exists u r, s = u ++ r /\ mo_end mo = length u /\ lang re u.
Proof.
  unfold match_at. destruct (m re s 0 no_marks) as [[j mk]|] eqn:E; [|discriminate].
  intros [= <-]. apply m_sound in E as (u & r & -> & -> & HL).
  exists u, r; auto.
Qed.

Lemma match_at_complete re u r : lang re u -> is_Some (match_at re (u ++ r)).
Proof.
  intros HL. unfold match_at.
  destruct (m_complete re u HL r 0 no_marks) as [[j mk] ->]; eauto.
Qed.

(** [search] finds a match exactly when a substring is in the language. *)
Lemma search_suffix re a b : search re b = true -> search re (a ++ b) = true.
Proof.
  intros Hb; induction a as [|x a IH]; simpl; auto.
  destruct (match_at re (x :: a ++ b)); auto.
Qed.

Lemma occurs_search re t : occurs (lang re) t -> search re t = true.
Proof.
  intros (a & u & b & -> & HL). apply search_suffix.
  destruct (match_at_complete re u b HL) as [mo Hmo].
  destruct (u ++ b); simpl; rewrite Hmo; auto.
Qed.

Lemma search_occurs re t : search re t = true -> occurs (lang re) t.
Proof.
  induction t as [|x t IH]; simpl.
  - destruct (match_at re []) as [mo|] eqn:E; [|discriminate]. intros _.
    apply match_at_sound in E as (u & r & E & _ & HL).
    exists [], u, r; auto.
  - destruct (match_at re (x :: t)) as [mo|] eqn:E.
    + intros _. apply match_at_sound in E as (u & r & E & _ & HL).
      exists [], u, r; auto.
    + intros H. apply IH in H as (a & u & b & -> & HL).
      exists (x :: a), u, b; auto.
Qed.

Lemma search_false_suffix re a b :
  search re (a ++ b) = false -> match_at re b = None.
Proof.
  intros H. destruct (match_at re b) as [mo|] eqn:E; auto.
  rewrite search_suffix in H; [discriminate|].
  destruct b; simpl; rewrite E; auto.
Qed.

Lemma re_sub_search_false re repl t :
  search re t = false -> re_sub re repl t = t.
Proof.
  intros H. apply re_sub_id. intros a b ->. eapply search_false_suffix; eauto.
Qed.

(* ================================================================== *)
(** ** Lengths *)

Lemma convert_to_match_length re s mo :
  match_at re s = Some mo ->
  length (convert_to_match mo) <= mo_end mo /\ mo_end mo <= length s.
Proof.
  unfold match_at. destruct (m re s 0 no_marks) as [[j mk]|] eqn:E; [|discriminate].
  intros [= <-]. apply m_bounded in E as (_ & Hj & [Ha Hb]); auto using marks_le_none.
  split; [|exact Hj]. unfold convert_to_match, group1; simpl.
  destruct mk as [[a|] [b|]]; simpl; try lia.
  rewrite length_take. specialize (Hb b eq_refl). lia.
Qed.

Lemma sub_from_length re k s :
  k <= length s ->
  length (sub_from re convert_to_match k s) <= length s - k.
Proof.
  revert k; induction s as [|x s IH]; intros k Hk; simpl in *.
  - destruct k; [|lia].
    destruct (match_at re []) as [mo|] eqn:E; simpl; [|lia].
    apply convert_to_match_length in E; simpl in E; lia.
  - destruct k as [|k]; [|apply IH; lia].
    destruct (match_at re (x :: s)) as [mo|] eqn:E; simpl.
    + apply convert_to_match_length in E as [Hg He]; simpl in He.
      destruct (mo_end mo) as [|k] eqn:Ek; rewrite length_app; simpl.
      * specialize (IH 0); lia.
      * specialize (IH k); lia.
    + specialize (IH 0); lia.
Qed.

Lemma re_sub_length re s : length (re_sub re convert_to_match s) <= length s.
Proof. pose proof (sub_from_length re 0 s). unfold re_sub. lia. Qed.

(* ================================================================== *)
(** ** The two patterns, step by step *)

Ltac list_len := repeat (progress (rewrite ?length_app; cbn [length])).

Lemma cref_regex_split prefix : cref_regex prefix = OPENER ++ CLOSER prefix.
Proof. reflexivity. Qed.

Lemma m_lit c re s i mk : m (Lit c :: re) (c :: s) i mk = m re s (S i) mk.
Proof. simpl. rewrite N.eqb_refl. reflexivity. Qed.

Lemma m_any re x s i mk :
  m (AnyMinPlus :: re) (x :: s) i mk
  = if is_any x then lazy_more is_any (m re) s (S i) mk else None.
Proof. reflexivity. Qed.

Lemma m_lits u re s i mk :
  m (map Lit u ++ re) (u ++ s) i mk = m re s (i + length u) mk.
Proof.
  revert i; induction u as [|c u IH]; intros i; simpl.
  - f_equal; lia.
  - rewrite N.eqb_refl, IH. f_equal; lia.
Qed.

Lemma text_startswith_spec s p :
  text_startswith s p = true <-> exists r, s = p ++ r.
Proof.
  revert s; induction p as [|c p IH]; intros s; simpl.
  - split; eauto.
  - destruct s as [|x s]; [split; [discriminate|intros [r [=]]]|].
    rewrite andb_true_iff, IH, N.eqb_eq. split.
    + intros [-> [r ->]]; eauto.
    + intros [r [= -> ->]]; eauto.
Qed.

Lemma m_lits_none u re s i mk :
  text_startswith s u = false -> m (map Lit u ++ re) s i mk = None.
Proof.
  revert s i; induction u as [|c u IH]; intros s i; simpl; [discriminate|].
  destruct s as [|x s]; auto.
  destruct (x =? c)%N; simpl; auto.
Qed.

(** Lazy white space before a literal that is no white space: all of the
    white space is passed. *)
Lemma m_space_lit ws c re s i mk :
  forallb is_space ws = true -> is_space c = false ->
  m (SpaceMinStar :: Lit c :: re) (ws ++ c :: s) i mk
  = m re s (S (i + length ws)) mk.
Proof.
  intros Hws Hc. revert i; induction ws as [|x ws IH]; intros i.
  - change (m (SpaceMinStar :: Lit c :: re)) with
      (lazy_more is_space (m (Lit c :: re))).
    rewrite lazy_more_eq. simpl app. rewrite m_lit, Hc, Nat.add_0_r.
    destruct (m re s (S i) mk); reflexivity.
  - simpl in Hws. apply andb_prop in Hws as [Hx Hws].
    change (m (SpaceMinStar :: Lit c :: re)) with
      (lazy_more is_space (m (Lit c :: re))) in *.
    rewrite lazy_more_eq. simpl app.
    assert ((x =? c)%N = false) as Hxc.
    { apply N.eqb_neq; intros ->; congruence. }
    simpl m at 1. rewrite Hxc, Hx, IH by exact Hws. f_equal; simpl; lia.
Qed.

(** The lazy [.+?] in front of the closing quote: over characters that are
    no quote it runs up to the quote, provided the rest of the pattern then
    matches. *)
Lemma lazy_any_to_quote re ys s i mk r :
  forallb ident_char ys = true ->
  m re s (S (i + length ys)) (set_mark 1 (i + length ys) mk) = Some r ->
  lazy_more is_any (m (Mark 1 :: Lit 34%N :: re)) (ys ++ 34%N :: s) i mk = Some r.
Proof.
  intros Hys. revert i; induction ys as [|y ys IH]; intros i Hr;
    rewrite lazy_more_eq; simpl app.
  - simpl in *. rewrite Nat.add_0_r in Hr. rewrite Hr. reflexivity.
  - simpl in Hys. apply andb_prop in Hys as [Hy Hys].
    unfold ident_char in Hy.
    apply andb_prop in Hy as [Hy _]; apply andb_prop in Hy as [Hany Hq].
    simpl m at 1. apply negb_true_iff in Hq. rewrite Hq, Hany.
    apply IH; auto.
    replace (S i + length ys) with (i + length (y :: ys)) by (simpl; lia).
    exact Hr.
Qed.

Lemma is_space_ident_char c : is_space c = true -> not_lt c = true.
Proof.
  intros H. unfold not_lt.
  destruct (N.eqb_spec c 60) as [->|]; [discriminate H|reflexivity].
Qed.

Lemma forallb_space_not_lt ws :
  forallb is_space ws = true -> forallb not_lt ws = true.
Proof.
  induction ws as [|x ws IH]; simpl; auto.
  intros [Hx Hws]%andb_prop. rewrite is_space_ident_char, IH; auto.
Qed.

Lemma spaces_inv sp :
  spaces sp = true ->
  forallb is_space (sp_see sp) = true /\ forallb is_space (sp_cref sp) = true
  /\ forallb is_space (sp_eq sp) = true /\ forallb is_space (sp_quote sp) = true
  /\ forallb is_space (sp_slash sp) = true /\ forallb is_space (sp_gt sp) = true.
Proof. unfold spaces. rewrite !andb_true_iff. tauto. Qed.

Lemma cref_regex_parts prefix :
  cref_regex prefix
  = head_regex ++ Mark 0 :: map Lit (qualified prefix []) ++ tail_regex.
Proof.
  unfold cref_regex, head_regex, tail_regex, qualified, lits.
  rewrite app_nil_r, map_app, <- !app_assoc. reflexivity.
Qed.

(** The head of the pattern, up to the opening quote, passes the head of
    the tag. *)
Lemma m_head sp re s i mk :
  spaces sp = true ->
  m (head_regex ++ re) (tag_head sp ++ s) i mk
  = m re s (i + length (tag_head sp)) mk.
Proof.
  intros (H1 & H2 & H3 & H4 & _)%spaces_inv.
  unfold tag_head, head_regex.
  change (lits "<") with [Lit 60%N]. change (lits "see") with (map Lit (str "see")).
  change (lits "cref") with (map Lit (str "cref")). change (lits "=") with [Lit 61%N].
  change (str "<") with [60%N]. change (str "=") with [61%N].
  change (str "see") with [115; 101; 101]%N.
  change (str "cref") with [99; 114; 101; 102]%N.
  change dq with [34%N].
  simpl map. rewrite <- !app_assoc. simpl app.
  rewrite m_lit, (m_space_lit (sp_see sp)), !m_lit by auto.
  rewrite (m_space_lit (sp_cref sp)), !m_lit by auto.
  rewrite (m_space_lit (sp_eq sp)) by auto.
  rewrite (m_space_lit (sp_quote sp)) by auto.
  f_equal. list_len. lia.
Qed.

(** The tail of the pattern, from [.+?] on, passes the identifier and the
    tail of the tag. *)
Lemma m_tail sp rest s i mk :
  spaces sp = true -> ident_ok rest = true ->
  m tail_regex (rest ++ tag_tail sp ++ s) i mk
  = Some (i + length rest + length (tag_tail sp),
          set_mark 1 (i + length rest) mk).
Proof.
  intros (_ & _ & _ & _ & H5 & H6)%spaces_inv Hid.
  destruct rest as [|y ys]; [discriminate|]. simpl in Hid.
  apply andb_prop in Hid as [Hy Hys].
  assert (is_any y = true) as Hany.
  { unfold ident_char in Hy. rewrite !andb_true_iff in Hy. tauto. }
  unfold tail_regex, tag_tail.
  change (lits "/") with [Lit 47%N]. change (lits ">") with [Lit 62%N].
  change (str "/") with [47%N]. change (str ">") with [62%N].
  change dq with [34%N]. simpl map. rewrite <- !app_assoc. simpl app.
  rewrite m_any, Hany.
  apply lazy_any_to_quote; auto.
  rewrite (m_space_lit (sp_slash sp)), (m_space_lit (sp_gt sp)) by auto.
  cbn [m]. replace (S i + length ys) with (i + length (y :: ys))
    by (simpl; lia).
  f_equal. f_equal. list_len. lia.
Qed.

(* ================================================================== *)
(** ** Attempts on tags *)

Lemma qualified_app prefix rest : qualified prefix rest = qualified prefix [] ++ rest.
Proof. unfold qualified. rewrite app_nil_r, <- app_assoc. reflexivity. Qed.

(** On an allow-listed tag the attempt covers the tag and captures the
    quoted identifier. *)
Lemma m_allowed prefix sp rest s :
  spaces sp = true -> ident_ok rest = true ->
  m (cref_regex prefix) (see_tag sp (qualified prefix rest) ++ s) 0 no_marks
  = Some (length (see_tag sp (qualified prefix rest)),
          (Some (length (tag_head sp)),
           Some (length (tag_head sp) + length (qualified prefix rest)))).
Proof.
  intros Hsp Hid. rewrite cref_regex_parts. unfold see_tag.
  rewrite (qualified_app prefix rest), <- !app_assoc, m_head by auto.
  cbn [m]. rewrite m_lits, m_tail by auto.
  unfold set_mark, no_marks; cbn [fst snd]. f_equal. f_equal.
  - list_len. lia.
  - f_equal. f_equal. list_len. lia.
Qed.

Lemma match_at_allowed prefix sp rest s :
  spaces sp = true -> ident_ok rest = true ->
  exists mo,
    match_at (cref_regex prefix) (see_tag sp (qualified prefix rest) ++ s) = Some mo
    /\ mo_end mo = length (see_tag sp (qualified prefix rest))
    /\ convert_to_match mo = qualified prefix rest.
Proof.
  intros Hsp Hid. unfold match_at. rewrite m_allowed by auto.
  eexists; split; [reflexivity|]. split; [reflexivity|].
  unfold convert_to_match, group1; cbn [mo_marks mo_string].
  replace (_ - _) with (length (qualified prefix rest)) by lia.
  unfold see_tag. rewrite <- app_assoc, drop_app_length.
  rewrite <- app_assoc, take_app_length. reflexivity.
Qed.

Lemma text_startswith_app q u y r :
  text_startswith q u = false -> forallb (fun c => negb (c =? y)%N) u = true ->
  text_startswith (q ++ y :: r) u = false.
Proof.
  revert q; induction u as [|c u IH]; intros q; simpl; [discriminate|].
  intros Hq [Hc Hu]%andb_prop. destruct q as [|x q]; simpl.
  - apply negb_true_iff in Hc. rewrite N.eqb_sym, Hc. reflexivity.
  - destruct (x =? c)%N; simpl in *; auto.
Qed.

(** On a tag whose quoted text does not start with the namespace the attempt
    fails. *)
Lemma match_at_other prefix sp q s :
  spaces sp = true ->
  forallb (fun c => negb (c =? 34)%N) (qualified prefix []) = true ->
  text_startswith q (qualified prefix []) = false ->
  match_at (cref_regex prefix) (see_tag sp q ++ s) = None.
Proof.
  intros Hsp Hp Hq. unfold match_at.
  rewrite cref_regex_parts. unfold see_tag.
  rewrite <- app_assoc, m_head by auto. cbn [m].
  rewrite m_lits_none; auto.
  unfold tag_tail, dq. rewrite <- !app_assoc. simpl app.
  apply text_startswith_app; auto.
Qed.

Lemma match_at_not_lt prefix x s :
  not_lt x = true -> match_at (cref_regex prefix) (x :: s) = None.
Proof.
  intros Hx. unfold match_at. rewrite cref_regex_parts. unfold head_regex.
  change (lits "<") with [Lit 60%N]. cbn [app m].
  apply negb_true_iff in Hx. rewrite Hx. reflexivity.
Qed.

(** A stretch without [<] is copied. *)
Lemma re_sub_skip_not_lt prefix repl blk s :
  forallb not_lt blk = true ->
  re_sub (cref_regex prefix) repl (blk ++ s)
  = blk ++ re_sub (cref_regex prefix) repl s.
Proof.
  intros Hb. apply re_sub_skip. intros a [|x b] -> Hne; [congruence|].
  apply match_at_not_lt.
  rewrite forallb_app in Hb. apply andb_prop in Hb as [_ Hb].
  simpl in Hb. apply andb_prop in Hb as [Hx _]. exact Hx.
Qed.

(* ------------------------------------------------------------------ *)
(** *** Texts without opener *)

Lemma lang_app_inv r1 r2 u :
  lang (r1 ++ r2) u -> exists u1 u2, u = u1 ++ u2 /\ lang r1 u1 /\ lang r2 u2.
Proof.
  revert u; induction r1 as [|n r1 IH]; intros u; simpl.
  - intros H; exists [], u; auto using lang_nil.
  - intros H; inversion H; subst;
      match goal with Hl : lang (r1 ++ r2) _ |- _ =>
        apply IH in Hl as (v1 & v2 & -> & Hv1 & Hv2) end.
    + exists (c :: v1), v2; auto using lang_lit.
    + exists (ws ++ v1), v2. rewrite app_assoc; auto using lang_space.
    + exists (x :: xs ++ v1), v2; simpl.
      rewrite app_assoc; auto using lang_any.
    + exists v1, v2; auto using lang_mark.
Qed.

Lemma accepts_cons n re x : accepts re x = true -> accepts (n :: re) x = true.
Proof. unfold accepts; simpl; intros ->; apply orb_true_r. Qed.

Lemma lang_accepts re u : lang re u -> forall x, In x u -> accepts re x = true.
Proof.
  induction 1 as [|c re u _ IH|ws re u Hws _ IH|y ys re u Hy Hys _ IH
                 |k re u _ IH]; intros x Hx.
  - destruct Hx.
  - destruct Hx as [<-|Hx]; [|auto using accepts_cons].
    unfold accepts; simpl. rewrite N.eqb_refl. reflexivity.
  - apply in_app_or in Hx as [Hx|Hx]; [|auto using accepts_cons].
    unfold accepts; simpl. rewrite forallb_forall in Hws. rewrite Hws; auto.
  - destruct Hx as [<-|Hx]; [unfold accepts; simpl; rewrite Hy; auto|].
    apply in_app_or in Hx as [Hx|Hx]; [|auto using accepts_cons].
    unfold accepts; simpl. rewrite forallb_forall in Hys. rewrite Hys; auto.
  - auto using accepts_cons.
Qed.

(** A word of accepted characters at the start of [b ++ s] ends inside [b]
    when [s] starts with a character that is not accepted. *)
Lemma app_stop (A : char -> bool) b s u k :
  b ++ s = u ++ k -> (forall x, In x u -> A x = true) ->
  match s with [] => True | y :: _ => A y = false end ->
  exists k', b = u ++ k'.
Proof.
  revert u; induction b as [|c b IH]; intros u E Hu Hs.
  - destruct u as [|x u]; [exists []; auto|]. simpl in E. subst s.
    rewrite Hu in Hs by (left; auto). discriminate.
  - destruct u as [|x u]; [exists (c :: b); auto|].
    simpl in E. injection E as -> E.
    destruct (IH u E) as [k' ->]; auto.
    + intros y Hy; apply Hu; right; auto.
    + exists k'; auto.
Qed.

(** No attempt that starts inside a text without opener succeeds, whatever
    follows it, as long as the opener cannot run into what follows. *)
Lemma inert_no_match prefix pre s :
  inert pre = true -> stops s = true ->
  forall a b, pre = a ++ b -> b <> [] ->
    match_at (cref_regex prefix) (b ++ s) = None.
Proof.
  intros Hin Hst a b -> Hb.
  destruct (match_at _ _) as [mo|] eqn:E; auto. exfalso.
  apply match_at_sound in E as (u & r & Hur & _ & HL).
  rewrite cref_regex_split in HL.
  apply lang_app_inv in HL as (u1 & u2 & -> & H1 & H2).
  change OPENER with (Lit 60%N :: tail OPENER) in H1.
  inversion H1 as [|c re' u0 H0| | |]; subst.
  destruct b as [|b0 b]; [congruence|].
  simpl in Hur. rewrite <- app_assoc in Hur. injection Hur as -> Hur.
  apply app_stop with (A := accepts (tail OPENER)) in Hur as [k' ->].
  - unfold inert in Hin. apply negb_true_iff in Hin.
    rewrite occurs_search in Hin; [discriminate|].
    exists a, (60%N :: u0), k'. split; auto.
  - apply lang_accepts; auto.
  - unfold stops in Hst. destruct s; auto. apply negb_true_iff; auto.
Qed.

Lemma re_sub_skip_inert prefix repl pre s :
  inert pre = true -> stops s = true ->
  re_sub (cref_regex prefix) repl (pre ++ s)
  = pre ++ re_sub (cref_regex prefix) repl s.
Proof. intros Hin Hst. apply re_sub_skip. eapply inert_no_match; eauto. Qed.

(** A text without [<] has no opener. *)
Lemma not_lt_inert t : forallb not_lt t = true -> inert t = true.
Proof.
  intros Ht. unfold inert. apply negb_true_iff.
  destruct (search OPENER t) eqn:E; auto.
  apply search_occurs in E as (a & u & b & -> & Hu).
  change OPENER with (Lit 60%N :: tail OPENER) in Hu.
  inversion Hu as [|c re' u0 H0| | |]; subst.
  rewrite forallb_app in Ht. apply andb_prop in Ht as [_ Ht].
  simpl in Ht. discriminate.
Qed.

(* ================================================================== *)
(** ** What the two patterns denote *)

Ltac lang_inv :=
  repeat match goal with
         | H : lang (_ :: _) _ |- _ => inversion H; clear H; subst
         | H : lang [] _ |- _ => inversion H; clear H; subst
         end.

Lemma lang_lits_inv u re v :
  lang (map Lit u ++ re) v -> exists v', v = u ++ v' /\ lang re v'.
Proof.
  revert v; induction u as [|c u IH]; intros v H; simpl in *; eauto.
  inversion H as [|c' re' v0 H0| | |]; subst.
  apply IH in H0 as (v' & -> & H'). eauto.
Qed.

Ltac list_norm := repeat (progress (rewrite <- ?app_assoc; cbn [app])).

Lemma lang_app r1 r2 u1 u2 :
  lang r1 u1 -> lang r2 u2 -> lang (r1 ++ r2) (u1 ++ u2).
Proof.
  intros H1 H2; induction H1; simpl; rewrite <- ?app_assoc;
    auto using lang_lit, lang_space, lang_mark.
  apply (lang_any x xs); auto.
Qed.

Lemma lang_lits u re v : lang re v -> lang (map Lit u ++ re) (u ++ v).
Proof. intros H; induction u; simpl; auto using lang_lit. Qed.

(** The words of a pattern are exactly the well-formed tags of its
    namespace: white space where it is allowed, and after the namespace and
    the dot at least one character, none of them a line feed. *)
Lemma lang_cref_regex prefix u :
  lang (cref_regex prefix) u <->
  exists sp rest,
    spaces sp = true /\ rest <> [] /\ forallb is_any rest = true
    /\ u = see_tag sp (qualified prefix rest).
Proof.
  rewrite cref_regex_parts. split.
  - intros H. apply lang_app_inv in H as (u1 & u2 & -> & H1 & H2).
    inversion H2 as [| | | |k re' v H3]; subst.
    apply lang_lits_inv in H3 as (v' & -> & H3).
    unfold head_regex, tail_regex in *.
    change (lits "<") with [Lit 60%N] in *.
    change (lits "see") with [Lit 115%N; Lit 101%N; Lit 101%N] in *.
    change (lits "cref") with [Lit 99%N; Lit 114%N; Lit 101%N; Lit 102%N] in *.
    change (lits "=") with [Lit 61%N] in *.
    change (lits "/") with [Lit 47%N] in *.
    change (lits ">") with [Lit 62%N] in *.
    change (map Lit dq) with [Lit 34%N] in *.
    cbn [app] in *. lang_inv.
    match goal with
    | H1 : forallb is_space ?w1 = true, H2 : forallb is_space ?w2 = true,
      H3 : forallb is_space ?w3 = true, H4 : forallb is_space ?w4 = true,
      H5 : forallb is_space ?w5 = true, H6 : forallb is_space ?w6 = true,
      Hx : is_any ?x = true, Hxs : forallb is_any ?xs = true
      |- context [60%N :: ?w1 ++ 115%N :: 101%N :: 101%N :: ?w2 ++ 99%N :: _ :: _ :: _ :: ?w3
            ++ 61%N :: ?w4 ++ [34%N]] =>
        match goal with
        | |- context [x :: xs ++ 34%N :: w5 ++ 47%N :: w6 ++ [62%N]] =>
            exists (Spacing w1 w2 w3 w4 w5 w6), (x :: xs)
        end
    end.
    split; [unfold spaces; cbn [sp_see sp_cref sp_eq sp_quote sp_slash sp_gt];
            repeat (apply andb_true_intro; split); assumption|].
    split; [discriminate|]. split; [simpl; apply andb_true_intro; auto|].
    unfold see_tag, tag_head, tag_tail, qualified.
    cbn [sp_see sp_cref sp_eq sp_quote sp_slash sp_gt].
    change (str "<") with [60%N]. change (str "=") with [61%N].
    change (str "see") with [115; 101; 101]%N.
    change (str "cref") with [99; 114; 101; 102]%N.
    change (str "/") with [47%N]. change (str ">") with [62%N].
    change dq with [34%N]. unfold qualified.
    rewrite app_nil_r. list_norm. reflexivity.
  - intros (sp & rest & (H1 & H2 & H3 & H4 & H5 & H6)%spaces_inv & Hne & Hany & ->).
    destruct rest as [|x xs]; [congruence|].
    simpl in Hany. apply andb_prop in Hany as [Hx Hxs].
    unfold see_tag. rewrite (qualified_app prefix (x :: xs)).
    apply lang_app.
    + unfold head_regex, tag_head.
      change (str "<") with [60%N]. change (str "=") with [61%N].
      change (str "see") with [115; 101; 101]%N.
      change (str "cref") with [99; 114; 101; 102]%N.
      change dq with [34%N]. list_norm.
      repeat (apply lang_lit || (apply lang_space; [assumption|])).
      apply lang_nil.
    + apply lang_mark. rewrite <- app_assoc. apply lang_lits.
      unfold tail_regex, tag_tail.
      change (str "/") with [47%N]. change (str ">") with [62%N].
      change dq with [34%N]. list_norm.
      apply lang_any; auto. apply lang_mark.
      repeat (apply lang_lit || (apply lang_space; [assumption|])).
      apply lang_nil.
Qed.

(* ================================================================== *)
(** ** The substitution loop on tags and on what lies between them *)

Lemma rewrite_eq t :
  rewrite t
  = re_sub (cref_regex "Troschuetz") convert_to_match
      (re_sub (cref_regex "SadRogue") convert_to_match t).
Proof. reflexivity. Qed.

Lemma see_tag_cons sp q : see_tag sp q = 60%N :: tag_body sp q.
Proof. reflexivity. Qed.

Lemma stops_see_tag sp q s : stops (see_tag sp q ++ s) = true.
Proof. reflexivity. Qed.

Lemma in_prefixes prefix :
  In prefix PREFIXES -> prefix = "SadRogue"%string \/ prefix = "Troschuetz"%string.
Proof. intros [<-|[<-|[]]]; auto. Qed.

Lemma in_sad : In "SadRogue"%string PREFIXES.
Proof. simpl; auto. Qed.

Lemma in_tro : In "Troschuetz"%string PREFIXES.
Proof. simpl; auto. Qed.

Lemma stops_qualified prefix rest s :
  In prefix PREFIXES -> stops (qualified prefix rest ++ s) = true.
Proof. intros [->| ->]%in_prefixes; reflexivity. Qed.

Lemma ident_ok_not_lt rest : ident_ok rest = true -> forallb not_lt rest = true.
Proof.
  destruct rest as [|y ys]; [discriminate|]. unfold ident_ok.
  generalize (y :: ys) as l. induction l as [|x l IH]; simpl; auto.
  unfold ident_char at 1. rewrite !andb_true_iff. intros [[_ ->] Hl]. auto.
Qed.

Lemma qualified_not_lt prefix rest :
  In prefix PREFIXES -> ident_ok rest = true ->
  forallb not_lt (qualified prefix rest) = true.
Proof.
  intros Hp Hid. rewrite qualified_app, forallb_app, (ident_ok_not_lt rest) by auto.
  apply in_prefixes in Hp as [->| ->]; reflexivity.
Qed.

Lemma qualified_no_quote prefix :
  In prefix PREFIXES ->
  forallb (fun c => negb (c =? 34)%N) (qualified prefix []) = true.
Proof. intros [->| ->]%in_prefixes; reflexivity. Qed.

Lemma tag_body_not_lt sp q :
  spaces sp = true -> forallb not_lt q = true ->
  forallb not_lt (tag_body sp q) = true.
Proof.
  intros (H1 & H2 & H3 & H4 & H5 & H6)%spaces_inv Hq.
  unfold tag_body, see_tag, tag_head, tag_tail.
  change (str "<") with [60%N]. rewrite <- !app_assoc. cbn [app tail].
  rewrite !forallb_app, Hq.
  rewrite (forallb_space_not_lt (sp_see sp)), (forallb_space_not_lt (sp_cref sp)),
    (forallb_space_not_lt (sp_eq sp)), (forallb_space_not_lt (sp_quote sp)),
    (forallb_space_not_lt (sp_slash sp)), (forallb_space_not_lt (sp_gt sp))
    by auto.
  reflexivity.
Qed.

Lemma re_sub_nil prefix repl : re_sub (cref_regex prefix) repl [] = [].
Proof. reflexivity. Qed.

Section Tags.

Variables (sp : spacing) (s : text).
Hypothesis Hsp : spaces sp = true.

(** The pattern of a namespace replaces a tag of that namespace by the quoted
    identifier. *)
Lemma re_sub_allowed_tag prefix rest :
  ident_ok rest = true ->
  re_sub (cref_regex prefix) convert_to_match
    (see_tag sp (qualified prefix rest) ++ s)
  = qualified prefix rest ++ re_sub (cref_regex prefix) convert_to_match s.
Proof.
  intros Hid.
  destruct (match_at_allowed prefix sp rest s Hsp Hid) as (mo & Hm & He & Hg).
  rewrite (re_sub_match _ _ _ _ mo), Hg; auto.
Qed.

(** It copies a tag whose quoted text is not in that namespace. *)
Lemma re_sub_other_tag prefix repl q :
  In prefix PREFIXES -> forallb not_lt q = true ->
  text_startswith q (qualified prefix []) = false ->
  re_sub (cref_regex prefix) repl (see_tag sp q ++ s)
  = see_tag sp q ++ re_sub (cref_regex prefix) repl s.
Proof.
  intros Hp Hq Hst.
  pose proof (match_at_other prefix sp q s Hsp (qualified_no_quote _ Hp) Hst) as Hm.
  rewrite see_tag_cons in *. simpl app in *.
  rewrite re_sub_nomatch by exact Hm. f_equal.
  apply re_sub_skip_not_lt, tag_body_not_lt; auto.
Qed.

End Tags.

Lemma rewrite_plain pre : inert pre = true -> rewrite pre = pre.
Proof.
  intros Hin. rewrite rewrite_eq.
  rewrite <- (app_nil_r pre) at 1.
  rewrite re_sub_skip_inert, re_sub_nil, app_nil_r by auto.
  rewrite <- (app_nil_r pre) at 1.
  rewrite re_sub_skip_inert, re_sub_nil, app_nil_r by auto.
  reflexivity.
Qed.

Lemma rewrite_allowed pre prefix sp rest s :
  inert pre = true -> In prefix PREFIXES ->
  spaces sp = true -> ident_ok rest = true ->
  rewrite (pre ++ see_tag sp (qualified prefix rest) ++ s)
  = pre ++ qualified prefix rest ++ rewrite s.
Proof.
  intros Hin Hp Hsp Hid. rewrite !rewrite_eq.
  pose proof (ident_ok_not_lt _ Hid) as Hlt.
  apply in_prefixes in Hp as [->| ->].
  - rewrite re_sub_skip_inert, re_sub_allowed_tag by auto using stops_see_tag.
    rewrite re_sub_skip_inert by auto.
    rewrite re_sub_skip_not_lt; [reflexivity|].
    rewrite qualified_app, forallb_app, Hlt. reflexivity.
  - rewrite re_sub_skip_inert by auto using stops_see_tag.
    rewrite re_sub_other_tag;
      [|auto using in_sad, qualified_not_lt, in_tro..|reflexivity].
    rewrite re_sub_skip_inert, re_sub_allowed_tag by auto using stops_see_tag.
    reflexivity.
Qed.

Lemma not_allowed_inv q prefix :
  not_allowed q = true -> In prefix PREFIXES ->
  text_startswith q (qualified prefix []) = false.
Proof.
  unfold not_allowed. rewrite forallb_forall. intros H Hp.
  apply negb_true_iff. auto.
Qed.

Lemma rewrite_other pre sp q s :
  inert pre = true -> spaces sp = true ->
  forallb not_lt q = true -> not_allowed q = true ->
  rewrite (pre ++ see_tag sp q ++ s) = pre ++ see_tag sp q ++ rewrite s.
Proof.
  intros Hin Hsp Hq Hna. rewrite !rewrite_eq.
  rewrite re_sub_skip_inert by auto using stops_see_tag.
  rewrite re_sub_other_tag by auto using not_allowed_inv, in_sad.
  rewrite re_sub_skip_inert by auto using stops_see_tag.
  rewrite re_sub_other_tag by auto using not_allowed_inv, in_tro.
  reflexivity.
Qed.

(** The identifier a tag was replaced by stays as it is. *)
Lemma rewrite_word pre prefix rest s :
  inert pre = true -> In prefix PREFIXES -> ident_ok rest = true ->
  rewrite (pre ++ qualified prefix rest ++ s)
  = pre ++ qualified prefix rest ++ rewrite s.
Proof.
  intros Hin Hp Hid. rewrite !rewrite_eq.
  rewrite (re_sub_skip_inert "SadRogue") by auto using stops_qualified.
  rewrite (re_sub_skip_not_lt "SadRogue" _ (qualified prefix rest))
    by auto using qualified_not_lt.
  rewrite (re_sub_skip_inert "Troschuetz") by auto using stops_qualified.
  rewrite (re_sub_skip_not_lt "Troschuetz" _ (qualified prefix rest))
    by auto using qualified_not_lt.
  reflexivity.
Qed.

(** After a tame text the loop goes on as if it started afresh. *)
Lemma rewrite_tame_app pre x y :
  tame pre ->
  (forall p, inert p = true -> rewrite (p ++ x) = p ++ y) ->
  rewrite (pre ++ x) = rewrite pre ++ y.
Proof.
  intros Ht Hx.
  induction Ht as [p Hp|p prefix sp rest t Hp Hpre Hsp Hid _ IH
                  |p sp q t Hp Hsp Hq Hna _ IH].
  - rewrite Hx, rewrite_plain by auto. reflexivity.
  - rewrite <- !app_assoc, !rewrite_allowed, IH, <- !app_assoc by auto.
    reflexivity.
  - rewrite <- !app_assoc, !rewrite_other, IH, <- !app_assoc by auto.
    reflexivity.
Qed.

(* ================================================================== *)
(** ** Runs of the script *)

Lemma only_cs_refl w : only_cs w w.
Proof.
  split; [|auto]. exists []. rewrite app_nil_r. split; [auto|intros ? ? []].
Qed.

Lemma only_cs_trans w1 w2 w3 : only_cs w1 w2 -> only_cs w2 w3 -> only_cs w1 w3.
Proof.
  intros [(n1 & E1 & H1) F1] [(n2 & E2 & H2) F2]. split.
  - exists (n1 ++ n2). rewrite E2, E1, app_assoc. split; auto.
    intros p md [Hin|Hin]%in_app_or; eauto.
  - intros p Hp. rewrite F2, F1; auto.
Qed.

Section Keeps.

Context {A B : Type}.

Lemma keeps_same (c : IO A) :
  (forall w, w_opened (snd (c w)) = w_opened w /\ w_fs (snd (c w)) = w_fs w) ->
  keeps only_cs c.
Proof.
  intros H w. destruct (H w) as [Ho Hf]. split.
  - exists []. rewrite app_nil_r. split; [auto|intros ? ? []].
  - intros p _. rewrite Hf. reflexivity.
Qed.

Lemma keeps_bind (c : IO A) (k : A -> IO B) :
  keeps only_cs c -> (forall a, keeps only_cs (k a)) -> keeps only_cs (bind c k).
Proof.
  intros Hc Hk w. unfold bind. specialize (Hc w).
  destruct (c w) as [[a|e] w']; simpl in *; auto.
  eapply only_cs_trans; [exact Hc|apply Hk].
Qed.

End Keeps.

Create HintDb keeps discriminated.

Lemma keeps_ret {A} (a : A) : keeps only_cs (ret a).
Proof. intros w. apply only_cs_refl. Qed.

Lemma keeps_raise {A} e : keeps only_cs (@raise A e).
Proof. intros w. apply only_cs_refl. Qed.

Lemma keeps_lift_option {A} e (o : option A) : keeps only_cs (lift_option e o).
Proof. destruct o; [apply keeps_ret|apply keeps_raise]. Qed.

Lemma keeps_for_each {A} (l : list A) (body : A -> IO unit) :
  (forall a, keeps only_cs (body a)) -> keeps only_cs (for_each l body).
Proof.
  intros Hb. induction l as [|a l IH]; simpl.
  - apply keeps_ret.
  - apply keeps_bind; auto.
Qed.

Lemma keeps_write_stdout s : keeps only_cs (write_stdout s).
Proof. apply keeps_same. intros w; split; reflexivity. Qed.

Lemma keeps_write_prompt prompt : keeps only_cs (write_prompt prompt).
Proof.
  apply keeps_same. intros w. unfold write_prompt.
  destruct (w_tty w); split; reflexivity.
Qed.

Lemma keeps_input prompt : keeps only_cs (input prompt).
Proof.
  apply keeps_bind; [apply keeps_write_prompt|]. intros _.
  apply keeps_same. intros w. destruct (w_stdin w); split; reflexivity.
Qed.

#[local] Hint Resolve keeps_ret keeps_raise keeps_lift_option
  keeps_write_stdout keeps_input : keeps.

Lemma keeps_confirm : keeps only_cs confirm_continue_prompt.
Proof.
  unfold confirm_continue_prompt, print_newline.
  repeat (apply keeps_bind; [auto with keeps|intros ?]). auto with keeps.
Qed.

Section OneFile.

Variable path : string.
Hypothesis Hcs : endswith path ".cs" = true.

Lemma keeps_log_open md : keeps only_cs (log_open path md).
Proof.
  intros w. split; simpl; auto.
  exists [(path, md)]. split; auto. intros p md' [[= <- <-]|[]]. exact Hcs.
Qed.

Lemma keeps_set_file f : keeps only_cs (set_file path f).
Proof.
  intros w. split; simpl.
  - exists []. rewrite app_nil_r. split; [auto|intros ? ? []].
  - intros p Hp. apply lookup_insert_ne. intros <-. congruence.
Qed.

Lemma keeps_read_binary : keeps only_cs (read_binary path).
Proof.
  apply keeps_bind; [apply keeps_log_open|]. intros _.
  apply keeps_same. intros w.
  destruct (w_fs w !! path) as [f|]; [destruct (f_readable f)|]; split; reflexivity.
Qed.

Lemma keeps_open_wb : keeps only_cs (open_wb path).
Proof.
  apply keeps_bind; [apply keeps_log_open|]. intros _ w.
  destruct (w_fs w !! path) as [f|] eqn:E; [destruct (f_writable f) eqn:Ew|].
  - pose proof (keeps_bind (set_file path (File [] (f_readable f) true))
                  (fun _ => ret (File [] (f_readable f) true))
                  (keeps_set_file _) (fun _ => keeps_ret _) w) as H.
    exact H.
  - apply only_cs_refl.
  - pose proof (keeps_bind (set_file path (File [] true true))
                  (fun _ => ret (File [] true true))
                  (keeps_set_file _) (fun _ => keeps_ret _) w) as H.
    exact H.
Qed.

#[local] Hint Resolve keeps_read_binary keeps_open_wb keeps_set_file : keeps.

Lemma keeps_process_file : keeps only_cs (process_file path).
Proof.
  unfold process_file, write_all.
  repeat (apply keeps_bind; [auto with keeps|intros ?]). auto with keeps.
Qed.

End OneFile.

Lemma keeps_main FILE_PATH : keeps only_cs (main FILE_PATH).
Proof.
  unfold main.
  apply keeps_bind; [apply keeps_confirm|]. intros ok.
  destruct ok; simpl; [|apply keeps_ret].
  apply keeps_bind.
  { apply keeps_same. intros w; split; reflexivity. }
  intros walk. apply keeps_for_each. intros [[path dirs] files].
  apply keeps_for_each. intros name.
  cbv zeta. destruct (endswith _ ".cs") eqn:E.
  - apply keeps_process_file, E.
  - apply keeps_ret.
Qed.

(** Two different endings of the same length cannot both end a path. *)
Lemma endswith_same_length p a b :
  endswith p a = true -> endswith p b = true ->
  String.length a = String.length b -> a = b.
Proof.
  unfold endswith. intros [_ Ha]%andb_prop [_ Hb]%andb_prop Hl.
  apply String.eqb_eq in Ha, Hb. rewrite Hl in Ha. congruence.
Qed.

(** One file, read, decoded, rewritten, encoded and written back. *)
Lemma process_file_ok w path f txt out :
  w_fs w !! path = Some f ->
  f_readable f = true -> f_writable f = true ->
  decode_utf8 (f_data f) = Some txt ->
  encode_utf8 (rewrite txt) = Some out ->
  process_file path w
  = (Ok tt,
     World (w_tree w) (<[path := File out true true]> (w_fs w)) (w_tty w)
       (w_stdin w) (w_stdout w) (w_stderr w)
       (w_opened w ++ [(path, RB)] ++ [(path, WB)])).
Proof.
  intros Hf Hr Hw Hd He.
  unfold process_file, read_binary, open_wb, write_all, log_open, set_file,
    bind, ret.
  simpl. rewrite Hf, Hr, Hd. simpl. rewrite Hf, Hw, Hr. simpl.
  rewrite He. simpl. rewrite insert_insert_eq, <- app_assoc. reflexivity.
Qed.

(* ================================================================== *)
(** ** The shape of a match and the fixed points of the loop *)

(** *** What a successful attempt looks like *)

Lemma m_lit_inv c re s i mk r :
  m (Lit c :: re) s i mk = Some r ->
  exists s', s = c :: s' /\ m re s' (S i) mk = Some r.
Proof.
  simpl. destruct s as [|x s]; [discriminate|].
  destruct (N.eqb_spec x c) as [->|]; [eauto|discriminate].
Qed.

Lemma lazy_more_inv p k s i mk r :
  lazy_more p k s i mk = Some r ->
  exists ws s', s = ws ++ s' /\ forallb p ws = true
                /\ k s' (i + length ws) mk = Some r.
Proof.
  revert i; induction s as [|x s IH]; intros i; rewrite lazy_more_eq;
    destruct (k _ i mk) as [r0|] eqn:E; try discriminate.
  - intros [= <-]. exists [], []. rewrite Nat.add_0_r. auto.
  - intros [= <-]. exists [], (x :: s). rewrite Nat.add_0_r. auto.
  - destruct (p x) eqn:Hp; [|discriminate]. intros H.
    apply IH in H as (ws & s' & -> & Hws & H).
    exists (x :: ws), s'. simpl. rewrite Hp, Hws.
    replace (i + S (length ws)) with (S i + length ws) by lia. auto.
Qed.

Lemma m_space_inv re s i mk r :
  m (SpaceMinStar :: re) s i mk = Some r ->
  exists ws s', s = ws ++ s' /\ forallb is_space ws = true
                /\ m re s' (i + length ws) mk = Some r.
Proof. apply lazy_more_inv. Qed.

Lemma m_any_inv re s i mk r :
  m (AnyMinPlus :: re) s i mk = Some r ->
  exists x xs s', s = x :: xs ++ s' /\ forallb is_any (x :: xs) = true
                  /\ m re s' (i + length (x :: xs)) mk = Some r.
Proof.
  destruct s as [|x s]; [discriminate|]. rewrite m_any.
  destruct (is_any x) eqn:Hx; [|discriminate]. intros H.
  apply lazy_more_inv in H as (xs & s' & -> & Hxs & H).
  exists x, xs, s'. simpl. rewrite Hx, Hxs.
  replace (i + S (length xs)) with (S i + length xs) by lia. auto.
Qed.

Lemma m_mark k re s i mk :
  m (Mark k :: re) s i mk = m re s i (set_mark k i mk).
Proof. reflexivity. Qed.

Lemma m_lits_inv u re s i mk r :
  m (map Lit u ++ re) s i mk = Some r ->
  exists s', s = u ++ s' /\ m re s' (i + length u) mk = Some r.
Proof.
  revert s i; induction u as [|c u IH]; intros s i; simpl.
  - rewrite Nat.add_0_r. eauto.
  - intros H. apply m_lit_inv in H as (s' & -> & H).
    apply IH in H as (s'' & -> & H). exists s''.
    replace (i + S (length u)) with (S i + length u) by lia. auto.
Qed.

(** A successful attempt of the pattern of a namespace has passed a tag of
    that namespace, and the marks enclose the quoted text. *)
Lemma m_cref_regex_inv prefix s j mk :
  m (cref_regex prefix) s 0 no_marks = Some (j, mk) ->
  exists sp rest s',
    spaces sp = true /\ rest <> [] /\ forallb is_any rest = true
    /\ s = see_tag sp (qualified prefix rest) ++ s'
    /\ j = length (see_tag sp (qualified prefix rest))
    /\ mk = (Some (length (tag_head sp)),
             Some (length (tag_head sp) + length (qualified prefix rest))).
Proof.
  rewrite cref_regex_parts. unfold head_regex, tail_regex.
  change (lits "<") with [Lit 60%N].
  change (lits "see") with [Lit 115%N; Lit 101%N; Lit 101%N].
  change (lits "cref") with [Lit 99%N; Lit 114%N; Lit 101%N; Lit 102%N].
  change (lits "=") with [Lit 61%N].
  change (lits "/") with [Lit 47%N].
  change (lits ">") with [Lit 62%N].
  change (map Lit dq) with [Lit 34%N].
  cbn [app]. intros H.
  apply m_lit_inv in H as (s1 & -> & H).
  apply m_space_inv in H as (w1 & s2 & -> & Hw1 & H).
  do 3 (apply m_lit_inv in H as (? & -> & H)).
  apply m_space_inv in H as (w2 & s3 & -> & Hw2 & H).
  do 4 (apply m_lit_inv in H as (? & -> & H)).
  apply m_space_inv in H as (w3 & s4 & -> & Hw3 & H).
  apply m_lit_inv in H as (? & -> & H).
  apply m_space_inv in H as (w4 & s5 & -> & Hw4 & H).
  apply m_lit_inv in H as (? & -> & H).
  rewrite m_mark in H.
  apply m_lits_inv in H as (s6 & -> & H).
  apply m_any_inv in H as (x & xs & s7 & -> & Hany & H).
  rewrite m_mark in H.
  apply m_lit_inv in H as (? & -> & H).
  apply m_space_inv in H as (w5 & s8 & -> & Hw5 & H).
  apply m_lit_inv in H as (? & -> & H).
  apply m_space_inv in H as (w6 & s9 & -> & Hw6 & H).
  apply m_lit_inv in H as (s' & -> & H).
  change (m [] s') with (fun i mk => Some (i, mk) : option (nat * marks)) in H.
  cbv beta in H. injection H as <- <-.
  exists (Spacing w1 w2 w3 w4 w5 w6), (x :: xs), s'.
  split; [unfold spaces; cbn [sp_see sp_cref sp_eq sp_quote sp_slash sp_gt];
          rewrite Hw1, Hw2, Hw3, Hw4, Hw5, Hw6; reflexivity|].
  split; [discriminate|]. split; [exact Hany|].
  rewrite (qualified_app prefix (x :: xs)).
  unfold see_tag, tag_head, tag_tail.
  cbn [sp_see sp_cref sp_eq sp_quote sp_slash sp_gt].
  change (str "<") with [60%N]. change (str "=") with [61%N].
  change (str "see") with [115; 101; 101]%N.
  change (str "cref") with [99; 114; 101; 102]%N.
  change (str "/") with [47%N]. change (str ">") with [62%N].
  change dq with [34%N].
  split; [list_norm; reflexivity|].
  unfold set_mark, no_marks; cbn [fst snd].
  split; [|f_equal; f_equal]; list_len; lia.
Qed.

(** *** How much a replacement takes away *)

(** A match is at least thirteen characters longer than its group: the
    opener up to the first quote has ten characters or more, and the closing
    three or more. *)
Lemma match_at_gap prefix s mo :
  match_at (cref_regex prefix) s = Some mo ->
  length (convert_to_match mo) + 13 <= mo_end mo /\ mo_end mo <= length s.
Proof.
  unfold match_at.
  destruct (m (cref_regex prefix) s 0 no_marks) as [[j mk]|] eqn:E;
    [|discriminate].
  intros [= <-].
  apply m_cref_regex_inv in E as (sp & rest & s' & _ & _ & _ & -> & -> & ->).
  unfold convert_to_match, group1; cbn [mo_marks mo_string mo_end].
  replace (_ - _) with (length (qualified prefix rest)) by lia.
  unfold see_tag. rewrite <- app_assoc, drop_app_length.
  rewrite <- app_assoc, take_app_length.
  unfold tag_head, tag_tail.
  change (str "<") with [60%N]. change (str "=") with [61%N].
  change (str "see") with [115; 101; 101]%N.
  change (str "cref") with [99; 114; 101; 102]%N.
  change (str "/") with [47%N]. change (str ">") with [62%N].
  change dq with [34%N].
  list_len. lia.
Qed.

Lemma sub_from_shorter prefix k s :
  k <= length s ->
  sub_from (cref_regex prefix) convert_to_match k s = drop k s
  \/ length (sub_from (cref_regex prefix) convert_to_match k s) + 13
     <= length s - k.
Proof.
  revert k; induction s as [|x s IH]; intros k Hk; simpl in *.
  - destruct k; [|lia].
    destruct (match_at (cref_regex prefix) []) as [mo|] eqn:E; [|left; reflexivity].
    apply match_at_gap in E; simpl in E; lia.
  - destruct k as [|k]; [|apply IH; lia]. simpl.
    destruct (match_at (cref_regex prefix) (x :: s)) as [mo|] eqn:E.
    + right. apply match_at_gap in E as [Hg He]; simpl in He.
      destruct (mo_end mo) as [|k] eqn:Ek; [lia|].
      rewrite length_app.
      pose proof (sub_from_length (cref_regex prefix) k s). lia.
    + destruct (IH 0) as [->|H]; [lia|left; reflexivity|right; simpl; lia].
Qed.

Lemma re_sub_shorter prefix s :
  re_sub (cref_regex prefix) convert_to_match s = s
  \/ length (re_sub (cref_regex prefix) convert_to_match s) + 13 <= length s.
Proof.
  destruct (sub_from_shorter prefix 0 s) as [H|H]; [lia|left; exact H|right].
  unfold re_sub. lia.
Qed.

Lemma rewrite_shorter t : rewrite t = t \/ length (rewrite t) + 13 <= length t.
Proof.
  rewrite rewrite_eq.
  destruct (re_sub_shorter "SadRogue" t) as [->|H1].
  - apply re_sub_shorter.
  - right. pose proof (re_sub_length (cref_regex "Troschuetz")
                         (re_sub (cref_regex "SadRogue") convert_to_match t)).
    lia.
Qed.

(** Where a pattern has a match, the substitution takes at least thirteen
    characters away. *)
Lemma re_sub_search_shorter prefix s :
  search (cref_regex prefix) s = true ->
  length (re_sub (cref_regex prefix) convert_to_match s) + 13 <= length s.
Proof.
  unfold re_sub. induction s as [|x s IH]; intros H; simpl in H |- *.
  - destruct (match_at (cref_regex prefix) []) as [mo|] eqn:E; [|discriminate].
    apply match_at_gap in E; simpl in E; lia.
  - destruct (match_at (cref_regex prefix) (x :: s)) as [mo|] eqn:E.
    + apply match_at_gap in E as [Hg He]; simpl in He.
      destruct (mo_end mo) as [|k] eqn:Ek; [lia|].
      rewrite length_app.
      pose proof (sub_from_length (cref_regex prefix) k s). lia.
    + specialize (IH H). simpl. lia.
Qed.

(** *** The fixed points of the loop *)

Lemma rewrite_no_occurrence t :
  (forall re, In re CREF_REGEXES -> ~ occurs (lang re) t) -> rewrite t = t.
Proof.
  intros H. rewrite rewrite_eq.
  assert (forall re, In re CREF_REGEXES -> search re t = false) as Hs.
  { intros re Hre. destruct (search re t) eqn:E; auto.
    apply search_occurs in E. destruct (H re Hre E). }
  rewrite (re_sub_search_false (cref_regex "SadRogue")) by (apply Hs; simpl; auto).
  apply re_sub_search_false, Hs; simpl; auto.
Qed.

(** A text in which a pattern has a match is changed by the loop. *)
Lemma rewrite_changes t re :
  In re CREF_REGEXES -> occurs (lang re) t ->
  length (rewrite t) + 13 <= length t.
Proof.
  intros Hre Hoc%occurs_search. rewrite rewrite_eq.
  pose proof (re_sub_length (cref_regex "Troschuetz")
                (re_sub (cref_regex "SadRogue") convert_to_match t)) as Hle.
  destruct (search (cref_regex "SadRogue") t) eqn:Es.
  - apply re_sub_search_shorter in Es. lia.
  - destruct Hre as [<-|[<-|[]]]; [congruence|].
    rewrite (re_sub_search_false (cref_regex "SadRogue")) by exact Es.
    apply re_sub_search_shorter, Hoc.
Qed.

(* ================================================================== *)
(** ** Examples *)

Example os_path_join_example :
  os_path_join "/repo/GoRogue.Docs" [".."; "GoRogue"]%string
  = "/repo/GoRogue.Docs/../GoRogue"%string
  /\ os_path_join "/repo/" ["a.cs"]%string = "/repo/a.cs"%string
  /\ os_path_join "/repo" ["/etc"; "b"]%string = "/etc/b"%string.
Proof. repeat split. Qed.

Example os_walk_example :
  os_walk "/top" (Dir ["a.cs"; "b.CS"]%string [("sub"%string, Dir ["c.cs"]%string [])])
  = [("/top", ["sub"], ["a.cs"; "b.CS"]); ("/top/sub", [], ["c.cs"])]%string.
Proof. reflexivity. Qed.

Example endswith_example :
  endswith "Point.cs" ".cs" = true /\ endswith "Notes.CS" ".cs" = false
  /\ endswith "cs" ".cs" = false /\ endswith ".cs" ".cs" = true.
Proof. repeat split. Qed.

(** U+00E9 and U+3000 in two and three bytes; an overlong form, a surrogate
    and a cut sequence are refused. *)
Example decode_utf8_example :
  decode_utf8 [99; 195; 169; 227; 128; 128]%N = Some [99; 233; 12288]%N
  /\ decode_utf8 [192; 128]%N = None
  /\ decode_utf8 [237; 160; 128]%N = None
  /\ decode_utf8 [226; 130]%N = None
  /\ encode_utf8 [99; 233; 12288]%N = Some [99; 195; 169; 227; 128; 128]%N.
Proof. repeat split. Qed.

(** White space of the pattern is Unicode white space; the identifier may
    not be empty and may not hold a line feed; the lazy [.+?] passes quotes
    when it has to. *)
Example rewrite_examples :
  rewrite (see_tag wide_spacing (qualified "Troschuetz" (str "X")))
  = str "Troschuetz.X"
  /\ rewrite (see_tag plain_spacing (qualified "SadRogue" []))
     = see_tag plain_spacing (qualified "SadRogue" [])
  /\ rewrite (see_tag plain_spacing (qualified "SadRogue" (str "a" ++ [LF] ++ str "b")))
     = see_tag plain_spacing (qualified "SadRogue" (str "a" ++ [LF] ++ str "b"))
  /\ rewrite (see_tag plain_spacing (qualified "SadRogue" (str "a" ++ dq ++ str "/")))
     = qualified "SadRogue" (str "a" ++ dq ++ str "/").
Proof. repeat split. Qed.

(** A confirmed run over the example tree: the two [.cs] files are read and
    written, in the order of the walk, and [Notes.CS] is not. *)
Example main_example :
  fst (main "/repo/GoRogue.Docs" (example_world (str "y"))) = Ok tt
  /\ w_opened (snd (main "/repo/GoRogue.Docs" (example_world (str "y"))))
     = [("/repo/GoRogue.Docs/../GoRogue/Point.cs", RB);
        ("/repo/GoRogue.Docs/../GoRogue/Point.cs", WB);
        ("/repo/GoRogue.Docs/../GoRogue/Sub/Gen.cs", RB);
        ("/repo/GoRogue.Docs/../GoRogue/Sub/Gen.cs", WB)]%string
  /\ f_data <$> (w_fs (snd (main "/repo/GoRogue.Docs" (example_world (str "y"))))
                 !! "/repo/GoRogue.Docs/../GoRogue/Point.cs"%string)
     = Some (ascii_bytes "// SadRogue.Foo.Bar")
  /\ f_data <$> (w_fs (snd (main "/repo/GoRogue.Docs" (example_world (str "y"))))
                 !! "/repo/GoRogue.Docs/../GoRogue/Notes.CS"%string)
     = Some (ascii_bytes "// " ++ foo_bar_tag).
Proof. vm_compute. repeat split. Qed.

(* ================================================================== *)
(** ** The substitution loop: what the script does to tags *)

(** Where the loop does what the patterns are written for.  A well-formed
    self-closing tag [<see cref='SadRogue.rest'/>], with any white space at
    the six places where the pattern allows it and an identifier [rest] that
    is not empty and has no quote, line feed or [<], is replaced by exactly
    [SadRogue.rest] when the text before it is tame, that is, when every
    opener in it starts a well-formed tag; the text before and the text
    after are rewritten on their own. *)
Theorem rewrite_allowed_tag_replaced (pre post : text) (sp : spacing) (rest : text) :
  tame pre -> spaces sp = true -> ident_ok rest = true ->
  rewrite (pre ++ see_tag sp (qualified "SadRogue" rest) ++ post)
  = rewrite pre ++ qualified "SadRogue" rest ++ rewrite post.
Proof.
  intros Ht Hsp Hid. apply rewrite_tame_app; auto.
  intros p Hp. apply rewrite_allowed; auto using in_sad.
Qed.

Lemma rewrite_allowed_tag_replaced_witness :
  tame (str "/// See " ++ system_string_tag ++ str " and ")
  /\ spaces wide_spacing = true
  /\ ident_ok (str "Foo.Bar") = true
  /\ rewrite ((str "/// See " ++ system_string_tag ++ str " and ")
              ++ see_tag wide_spacing (qualified "SadRogue" (str "Foo.Bar"))
              ++ str ".")
     = rewrite (str "/// See " ++ system_string_tag ++ str " and ")
       ++ qualified "SadRogue" (str "Foo.Bar") ++ rewrite (str ".").
Proof.
  assert (tame (str "/// See " ++ system_string_tag ++ str " and ")) as Ht.
  { apply tame_other; try reflexivity. apply tame_plain; reflexivity. }
  split; [exact Ht|]. split; [reflexivity|]. split; [reflexivity|].
  apply (rewrite_allowed_tag_replaced _ _ wide_spacing (str "Foo.Bar") Ht);
    reflexivity.
Defined.

(** C1.  The loop misses a well-formed tag.  After a tag of the namespace
    that is not self-closing, on the same line, the lazy [.+?] passes the
    closing quote of that tag, and the match runs from there to the end of
    the well-formed tag.  The well-formed tag is not replaced by its
    identifier: its [<see cref=] stays in the output, and the tag before it
    has lost its own. *)
Theorem allowed_tag_after_open_tag_not_replaced :
  foo_bar_tag = str "<see cref=" ++ dq ++ str "SadRogue.Foo.Bar" ++ dq ++ str "/>"
  /\ open_tag_text
     = str "<see cref=" ++ dq ++ str "SadRogue.A" ++ dq ++ str ">x</see> "
  /\ rewrite open_tag_text = open_tag_text
  /\ rewrite (open_tag_text ++ foo_bar_tag)
     = str "SadRogue.A" ++ dq ++ str ">x</see> <see cref=" ++ dq
       ++ str "SadRogue.Foo.Bar"
  /\ rewrite (open_tag_text ++ foo_bar_tag)
     <> open_tag_text ++ str "SadRogue.Foo.Bar".
Proof.
  split; [reflexivity|]. split; [reflexivity|]. split; [reflexivity|].
  split; [reflexivity|]. vm_compute. discriminate.
Qed.

(** A well-formed self-closing [see cref] tag whose quoted text has no [<]
    and does not start with [SadRogue.] or [Troschuetz.] is left as it is
    when the text before it is tame. *)
Theorem rewrite_other_tag_unchanged (pre post : text) (sp : spacing) (q : text) :
  tame pre -> spaces sp = true ->
  forallb not_lt q = true -> not_allowed q = true ->
  rewrite (pre ++ see_tag sp q ++ post)
  = rewrite pre ++ see_tag sp q ++ rewrite post.
Proof.
  intros Ht Hsp Hq Hna. apply rewrite_tame_app; auto.
  intros p Hp. apply rewrite_other; auto.
Qed.

Lemma rewrite_other_tag_unchanged_witness :
  tame (str "/// " ++ foo_bar_tag ++ str " or ")
  /\ spaces plain_spacing = true
  /\ forallb not_lt (str "System.String") = true
  /\ not_allowed (str "System.String") = true
  /\ rewrite ((str "/// " ++ foo_bar_tag ++ str " or ")
              ++ see_tag plain_spacing (str "System.String") ++ str ".")
     = rewrite (str "/// " ++ foo_bar_tag ++ str " or ")
       ++ see_tag plain_spacing (str "System.String") ++ rewrite (str ".").
Proof.
  assert (tame (str "/// " ++ foo_bar_tag ++ str " or ")) as Ht.
  { apply tame_allowed; try reflexivity; [apply in_sad|].
    apply tame_plain; reflexivity. }
  split; [exact Ht|]. do 3 (split; [reflexivity|]).
  apply (rewrite_other_tag_unchanged _ _ plain_spacing (str "System.String") Ht);
    reflexivity.
Defined.

(** C2.  The loop damages a tag of another namespace.  After a tag of an
    allow-listed namespace that is not self-closing, on the same line, the
    match that starts at that tag runs on to the end of the [System.String]
    tag, which loses its closing and is no longer in the output; no match
    starts at the [System.String] tag itself. *)
Theorem other_tag_after_open_tag_changed :
  system_string_tag = str "<see cref=" ++ dq ++ str "System.String" ++ dq ++ str "/>"
  /\ rewrite (open_tag_text ++ system_string_tag)
     = str "SadRogue.A" ++ dq ++ str ">x</see> <see cref=" ++ dq
       ++ str "System.String"
  /\ text_contains (rewrite (open_tag_text ++ system_string_tag))
       system_string_tag = false
  /\ (forall re, In re CREF_REGEXES -> match_at re system_string_tag = None).
Proof.
  split; [reflexivity|]. split; [reflexivity|]. split; [reflexivity|].
  intros re [<-|[<-|[]]]; reflexivity.
Qed.

(** C3.  On a text without a substring that matches either pattern the loop
    is the identity. *)
Theorem rewrite_identity_without_match (t : text) :
  (forall re, In re CREF_REGEXES -> ~ occurs (lang re) t) ->
  rewrite t = t.
Proof.
  intros H. rewrite rewrite_eq.
  assert (forall re, In re CREF_REGEXES -> search re t = false) as Hs.
  { intros re Hre. destruct (search re t) eqn:E; auto.
    apply search_occurs in E. destruct (H re Hre E). }
  rewrite (re_sub_search_false (cref_regex "SadRogue")) by (apply Hs; simpl; auto).
  apply re_sub_search_false, Hs; simpl; auto.
Qed.

Lemma rewrite_identity_without_match_witness :
  (forall re, In re CREF_REGEXES ->
     ~ occurs (lang re) (str "/// <summary>A " ++ system_string_tag ++ str ".</summary>"))
  /\ rewrite (str "/// <summary>A " ++ system_string_tag ++ str ".</summary>")
     = str "/// <summary>A " ++ system_string_tag ++ str ".</summary>".
Proof.
  assert (forall re, In re CREF_REGEXES ->
     ~ occurs (lang re) (str "/// <summary>A " ++ system_string_tag ++ str ".</summary>"))
    as H.
  { intros re [<-|[<-|[]]] Hoc; apply occurs_search in Hoc;
      vm_compute in Hoc; discriminate. }
  split; [exact H|]. apply (rewrite_identity_without_match _ H).
Defined.

(** C4 (as amended).  Applying the loop twice gives what applying it once
    gives exactly when neither pattern has a match left in what the first
    application returns. *)
Theorem rewrite_idempotent_iff_no_match_left (t : text) :
  rewrite (rewrite t) = rewrite t
  <-> (forall re, In re CREF_REGEXES -> ~ occurs (lang re) (rewrite t)).
Proof.
  split.
  - intros Hfix re Hre Hoc.
    pose proof (rewrite_changes (rewrite t) re Hre Hoc) as Hlen.
    rewrite Hfix in Hlen. lia.
  - apply rewrite_no_occurrence.
Qed.

(** After a tag of the namespace that is not self-closing nothing is left
    to match, though the text is not tame. *)
Lemma rewrite_idempotent_iff_no_match_left_witness :
  (forall re, In re CREF_REGEXES ->
     ~ occurs (lang re) (rewrite (open_tag_text ++ system_string_tag)))
  /\ rewrite (rewrite (open_tag_text ++ system_string_tag))
     = rewrite (open_tag_text ++ system_string_tag).
Proof.
  assert (forall re, In re CREF_REGEXES ->
     ~ occurs (lang re) (rewrite (open_tag_text ++ system_string_tag))) as H.
  { intros re [<-|[<-|[]]] Hoc; apply occurs_search in Hoc;
      vm_compute in Hoc; discriminate. }
  split; [exact H|].
  apply (proj2 (rewrite_idempotent_iff_no_match_left
                  (open_tag_text ++ system_string_tag)) H).
Defined.

(** A condition on the input that is enough: on a tame text (every opener
    starts a well-formed tag, allow-listed or not) applying the loop twice
    gives what applying it once gives. *)
Lemma rewrite_idempotent_on_tame (t : text) :
  tame t -> rewrite (rewrite t) = rewrite t.
Proof.
  induction 1 as [p Hp|p prefix sp rest t Hp Hpre Hsp Hid _ IH
                 |p sp q t Hp Hsp Hq Hna _ IH].
  - rewrite (rewrite_plain p Hp). apply rewrite_plain, Hp.
  - rewrite rewrite_allowed, rewrite_word, IH by auto. reflexivity.
  - rewrite rewrite_other, rewrite_other, IH by auto. reflexivity.
Qed.

Lemma rewrite_idempotent_on_tame_witness :
  tame (str "/// " ++ foo_bar_tag ++ str " or " ++ system_string_tag)
  /\ rewrite (rewrite (str "/// " ++ foo_bar_tag ++ str " or " ++ system_string_tag))
     = rewrite (str "/// " ++ foo_bar_tag ++ str " or " ++ system_string_tag).
Proof.
  assert (tame (str "/// " ++ foo_bar_tag ++ str " or " ++ system_string_tag))
    as Ht.
  { apply tame_allowed; try reflexivity; [apply in_sad|].
    rewrite <- (app_nil_r system_string_tag).
    apply tame_other; try reflexivity. apply tame_plain; reflexivity. }
  split; [exact Ht|]. apply (rewrite_idempotent_on_tame _ Ht).
Defined.

(** C4, as stated, fails: of a tag around a tag the loop replaces the inner
    one, and what is left is a tag that a second run replaces. *)
Lemma rewrite_not_idempotent :
  rewrite nested_tag_text
  = str "<see cref=" ++ dq ++ str "SadRogue.X" ++ dq ++ str "/>"
  /\ rewrite (rewrite nested_tag_text) = str "SadRogue.X"
  /\ rewrite (rewrite nested_tag_text) <> rewrite nested_tag_text.
Proof. split; [reflexivity|]. split; [reflexivity|]. vm_compute. discriminate. Qed.

(** C9.  The loop never lengthens the text. *)
Theorem rewrite_length_le (t : text) : length (rewrite t) <= length t.
Proof.
  rewrite rewrite_eq.
  etransitivity; [apply re_sub_length|apply re_sub_length].
Qed.

(* ================================================================== *)
(** ** The script as a whole *)

(** C5.  A file that holds [See also: <see cref='SadRogue.Primitives.Point' />.]
    holds [See also: SadRogue.Primitives.Point.] after it was processed. *)
Theorem process_file_point (w : world) (path : string) (f : file) :
  w_fs w !! path = Some f ->
  f_data f = point_before -> f_readable f = true -> f_writable f = true ->
  fst (process_file path w) = Ok tt
  /\ w_fs (snd (process_file path w))
     = <[path := File point_after true true]> (w_fs w).
Proof.
  intros Hf Hd Hr Hw.
  rewrite (process_file_ok w path f point_before point_after); auto.
  rewrite Hd. reflexivity.
Qed.

Lemma process_file_point_witness :
  fst (process_file "Point.cs" (one_file_world "Point.cs" point_before)) = Ok tt
  /\ w_fs (snd (process_file "Point.cs" (one_file_world "Point.cs" point_before)))
     = <[ "Point.cs"%string := File point_after true true ]>
         (w_fs (one_file_world "Point.cs" point_before)).
Proof.
  apply (process_file_point _ _ (File point_before true true));
    [apply lookup_singleton_eq|reflexivity..].
Defined.

(** C6.  A file that holds
    [<see cref='Troschuetz.Random.IGenerator'/> and <see cref='System.Int32'/>]
    holds [Troschuetz.Random.IGenerator and <see cref='System.Int32'/>] after
    it was processed. *)
Theorem process_file_generator (w : world) (path : string) (f : file) :
  w_fs w !! path = Some f ->
  f_data f = generator_before -> f_readable f = true -> f_writable f = true ->
  fst (process_file path w) = Ok tt
  /\ w_fs (snd (process_file path w))
     = <[path := File generator_after true true]> (w_fs w).
Proof.
  intros Hf Hd Hr Hw.
  rewrite (process_file_ok w path f generator_before generator_after); auto.
  rewrite Hd. reflexivity.
Qed.

Lemma process_file_generator_witness :
  fst (process_file "Gen.cs" (one_file_world "Gen.cs" generator_before)) = Ok tt
  /\ w_fs (snd (process_file "Gen.cs" (one_file_world "Gen.cs" generator_before)))
     = <[ "Gen.cs"%string := File generator_after true true ]>
         (w_fs (one_file_world "Gen.cs" generator_before)).
Proof.
  apply (process_file_generator _ _ (File generator_before true true));
    [apply lookup_singleton_eq|reflexivity..].
Defined.

(** C7.  When the answer to the prompt is neither [y] nor [Y], [main] returns
    normally, has opened no file, and the files are as they were. *)
Theorem main_declined (FILE_PATH : string) (w : world) (resp : text)
    (rest : list text) :
  w_stdin w = resp :: rest -> resp <> str "y" -> resp <> str "Y" ->
  fst (main FILE_PATH w) = Ok tt
  /\ w_fs (snd (main FILE_PATH w)) = w_fs w
  /\ w_opened (snd (main FILE_PATH w)) = w_opened w
  /\ w_tree (snd (main FILE_PATH w)) = w_tree w.
Proof.
  intros Hin Hy HY.
  unfold main, confirm_continue_prompt, input, print_newline, write_prompt,
    write_stdout, write_stderr, bind, ret.
  destruct (w_tty w); simpl; rewrite Hin; simpl;
    (rewrite bool_decide_eq_false_2; [simpl; auto|]);
    rewrite !elem_of_cons, elem_of_nil; tauto.
Qed.

Lemma main_declined_witness :
  fst (main "/repo/GoRogue.Docs" (example_world (str "yes"))) = Ok tt
  /\ w_fs (snd (main "/repo/GoRogue.Docs" (example_world (str "yes"))))
     = w_fs (example_world (str "yes"))
  /\ w_opened (snd (main "/repo/GoRogue.Docs" (example_world (str "yes"))))
     = w_opened (example_world (str "yes"))
  /\ w_tree (snd (main "/repo/GoRogue.Docs" (example_world (str "yes"))))
     = w_tree (example_world (str "yes")).
Proof.
  apply (main_declined _ _ (str "yes") []); [reflexivity|discriminate..].
Defined.

(** C8.  [confirm_continue_prompt] returns, and returns true exactly when the
    line that was read is [y] or [Y]. *)
Theorem confirm_continue_prompt_spec (w : world) (resp : text) (rest : list text) :
  w_stdin w = resp :: rest ->
  exists b, fst (confirm_continue_prompt w) = Ok b
            /\ (b = true <-> resp = str "y" \/ resp = str "Y").
Proof.
  intros Hin. exists (bool_decide (resp ∈ [str "y"; str "Y"])). split.
  - unfold confirm_continue_prompt, input, print_newline, write_prompt,
      write_stdout, write_stderr, bind, ret.
    destruct (w_tty w); simpl; rewrite Hin; reflexivity.
  - rewrite bool_decide_eq_true, !elem_of_cons, elem_of_nil. tauto.
Qed.

Lemma confirm_continue_prompt_spec_witness :
  exists b, fst (confirm_continue_prompt (example_world [])) = Ok b
            /\ (b = true <-> [] = str "y" \/ [] = str "Y").
Proof. apply (confirm_continue_prompt_spec _ [] []). reflexivity. Defined.

(** C10.  Whatever the world, and however the run ends, every path [main]
    opens ends in [.cs], and a file whose path does not end in [.cs] keeps
    its content; in particular a path that ends in [.CS], [.Cs] or [.cS] is
    never opened and its file stays as it is. *)
Theorem main_extension_filter (FILE_PATH : string) (w : world) :
  exists new,
    w_opened (snd (main FILE_PATH w)) = w_opened w ++ new
    /\ (forall p md, In (p, md) new -> endswith p ".cs" = true)
    /\ (forall p, endswith p ".cs" = false ->
          w_fs (snd (main FILE_PATH w)) !! p = w_fs w !! p)
    /\ (forall p, endswith p ".CS" = true \/ endswith p ".Cs" = true
                  \/ endswith p ".cS" = true ->
          (forall md, ~ In (p, md) new)
          /\ w_fs (snd (main FILE_PATH w)) !! p = w_fs w !! p).
Proof.
  destruct (keeps_main FILE_PATH w) as [(new & Ho & Hn) Hf].
  exists new. split; [exact Ho|]. split; [exact Hn|]. split; [exact Hf|].
  intros p Hp.
  assert (endswith p ".cs" = false) as Hcs.
  { destruct (endswith p ".cs") eqn:E; auto.
    destruct Hp as [Hp|[Hp|Hp]];
      pose proof (endswith_same_length _ _ _ Hp E eq_refl); discriminate. }
  split; [|auto]. intros md Hin. apply Hn in Hin. congruence.
Qed.

Lemma main_extension_filter_witness :
  w_fs (snd (main "/repo/GoRogue.Docs" (example_world (str "y"))))
    !! "/repo/GoRogue.Docs/../GoRogue/Notes.CS"%string
  = w_fs (example_world (str "y"))
    !! "/repo/GoRogue.Docs/../GoRogue/Notes.CS"%string.
Proof.
  destruct (main_extension_filter "/repo/GoRogue.Docs" (example_world (str "y")))
    as (new & _ & _ & _ & H).
  apply (H "/repo/GoRogue.Docs/../GoRogue/Notes.CS"%string). left. reflexivity.
Defined.

(* ================================================================== *)
(** ** Beyond the claims: the patterns *)

(** X1.  Every match of either pattern is a [see cref] tag of the pattern's
    namespace: white space only where the pattern allows it, and after the
    namespace and the dot at least one character, none a line feed.  The
    match ends with the tag, and what [convert_to_match] returns for it is
    the text between the quotes. *)
Theorem match_at_cref_regex_shape (prefix : string) (s : text) (mo : match_obj) :
  match_at (cref_regex prefix) s = Some mo ->
  exists sp rest s',
    spaces sp = true /\ rest <> [] /\ forallb is_any rest = true
    /\ s = see_tag sp (qualified prefix rest) ++ s'
    /\ mo_end mo = length (see_tag sp (qualified prefix rest))
    /\ convert_to_match mo = qualified prefix rest.
Proof.
  unfold match_at.
  destruct (m (cref_regex prefix) s 0 no_marks) as [[j mk]|] eqn:E;
    [|discriminate].
  intros [= <-].
  apply m_cref_regex_inv in E as (sp & rest & s' & Hsp & Hne & Hany & -> & -> & ->).
  exists sp, rest, s'. split_and!; auto.
  unfold convert_to_match, group1; cbn [mo_marks mo_string].
  replace (_ - _) with (length (qualified prefix rest)) by lia.
  unfold see_tag. rewrite <- app_assoc, drop_app_length.
  rewrite <- app_assoc, take_app_length. reflexivity.
Qed.

Lemma match_at_cref_regex_shape_witness :
  exists sp rest s',
    spaces sp = true /\ rest <> [] /\ forallb is_any rest = true
    /\ foo_bar_tag ++ str " and more"
       = see_tag sp (qualified "SadRogue" rest) ++ s'
    /\ mo_end (MatchObj (foo_bar_tag ++ str " and more") 30 (Some 11, Some 27))
       = length (see_tag sp (qualified "SadRogue" rest))
    /\ convert_to_match
         (MatchObj (foo_bar_tag ++ str " and more") 30 (Some 11, Some 27))
       = qualified "SadRogue" rest.
Proof.
  apply (match_at_cref_regex_shape "SadRogue" (foo_bar_tag ++ str " and more")).
  reflexivity.
Defined.

(** *** The loop only takes characters away *)

Lemma convert_to_match_sublist re s mo :
  match_at re s = Some mo ->
  convert_to_match mo `sublist_of` take (mo_end mo) s /\ mo_end mo <= length s.
Proof.
  unfold match_at.
  destruct (m re s 0 no_marks) as [[j mk]|] eqn:E; [|discriminate].
  intros [= <-].
  apply m_bounded in E as (_ & Hj & [Ha Hb]); auto using marks_le_none.
  split; [|exact Hj]. unfold convert_to_match, group1; simpl.
  destruct mk as [[a|] [b|]]; simpl; try apply sublist_nil_l.
  specialize (Ha a eq_refl). specialize (Hb b eq_refl). simpl in *.
  rewrite take_drop_commute.
  etransitivity; [apply sublist_drop|].
  replace (take (a + (b - a)) s) with (take (a + (b - a)) (take j s))
    by (rewrite take_take; f_equal; lia).
  apply sublist_take.
Qed.

Lemma sub_from_sublist re k s :
  k <= length s ->
  sub_from re convert_to_match k s `sublist_of` drop k s.
Proof.
  revert k; induction s as [|x s IH]; intros k Hk; simpl in *.
  - destruct k; [|lia].
    destruct (match_at re []) as [mo|] eqn:E; [|reflexivity].
    apply convert_to_match_sublist in E as [Hg _].
    rewrite take_nil in Hg. exact Hg.
  - destruct k as [|k]; [|apply IH; lia]. simpl.
    destruct (match_at re (x :: s)) as [mo|] eqn:E.
    + apply convert_to_match_sublist in E as [Hg He]. simpl in He.
      destruct (mo_end mo) as [|k] eqn:Ek.
      * simpl in Hg. apply sublist_nil_r in Hg. rewrite Hg. simpl.
        apply sublist_skip. apply (IH 0). lia.
      * rewrite <- (take_drop (S k) (x :: s)).
        apply sublist_app; [exact Hg|]. simpl. apply IH. lia.
    + apply sublist_skip. apply (IH 0). lia.
Qed.

Lemma re_sub_sublist re s : re_sub re convert_to_match s `sublist_of` s.
Proof. apply (sub_from_sublist re 0 s). lia. Qed.

Lemma sublist_rewrite t : rewrite t `sublist_of` t.
Proof.
  rewrite rewrite_eq. etransitivity; apply re_sub_sublist.
Qed.

(** X2.  What the loop returns is the input with characters taken away:
    nothing is added and nothing changes place. *)
Theorem rewrite_sublist (t : text) : rewrite t `sublist_of` t.
Proof. apply sublist_rewrite. Qed.

Lemma sublist_forallb (P : char -> bool) (l k : text) :
  l `sublist_of` k -> forallb P k = true -> forallb P l = true.
Proof.
  induction 1 as [|x l k _ IH|x l k _ IH]; simpl; auto.
  - intros [-> Hk]%andb_prop. auto.
  - intros [_ Hk]%andb_prop. auto.
Qed.

(** X3.  The tags of the second namespace are handled like those of the
    first: after a tame text a well-formed [Troschuetz] tag is replaced by
    its quoted identifier. *)
Theorem rewrite_troschuetz_tag_replaced (pre post : text) (sp : spacing)
    (rest : text) :
  tame pre -> spaces sp = true -> ident_ok rest = true ->
  rewrite (pre ++ see_tag sp (qualified "Troschuetz" rest) ++ post)
  = rewrite pre ++ qualified "Troschuetz" rest ++ rewrite post.
Proof.
  intros Ht Hsp Hid. apply rewrite_tame_app; auto.
  intros p Hp. apply rewrite_allowed; auto using in_tro.
Qed.

Lemma rewrite_troschuetz_tag_replaced_witness :
  tame (str "/// " ++ foo_bar_tag ++ str " uses ")
  /\ spaces wide_spacing = true
  /\ ident_ok (str "Random.IGenerator") = true
  /\ rewrite ((str "/// " ++ foo_bar_tag ++ str " uses ")
              ++ see_tag wide_spacing (qualified "Troschuetz" (str "Random.IGenerator"))
              ++ str ".")
     = rewrite (str "/// " ++ foo_bar_tag ++ str " uses ")
       ++ qualified "Troschuetz" (str "Random.IGenerator") ++ rewrite (str ".").
Proof.
  assert (tame (str "/// " ++ foo_bar_tag ++ str " uses ")) as Ht.
  { apply tame_allowed; try reflexivity; [apply in_sad|].
    apply tame_plain; reflexivity. }
  split; [exact Ht|]. split; [reflexivity|]. split; [reflexivity|].
  apply (rewrite_troschuetz_tag_replaced _ _ wide_spacing
           (str "Random.IGenerator") Ht); reflexivity.
Defined.

(** *** Identifiers the patterns do not accept *)

(** Without a quote ahead the lazy [.+?] finds no end. *)
Lemma lazy_any_no_quote re s i mk :
  forallb not_quote s = true ->
  lazy_more is_any (m (Mark 1 :: Lit 34%N :: re)) s i mk = None.
Proof.
  revert i; induction s as [|x s IH]; intros i Hs; rewrite lazy_more_eq.
  - reflexivity.
  - simpl in Hs. apply andb_prop in Hs as [Hx Hs].
    apply negb_true_iff in Hx. rewrite m_mark. simpl m at 1. rewrite Hx.
    destruct (is_any x); auto.
Qed.

(** Nor does it pass a line feed. *)
Lemma lazy_any_line_feed re ys s i mk :
  forallb not_quote ys = true ->
  lazy_more is_any (m (Mark 1 :: Lit 34%N :: re)) (ys ++ LF :: s) i mk = None.
Proof.
  revert i; induction ys as [|y ys IH]; intros i Hys; rewrite lazy_more_eq.
  - reflexivity.
  - simpl in Hys. apply andb_prop in Hys as [Hy Hys].
    apply negb_true_iff in Hy. rewrite m_mark. simpl app. simpl m at 1.
    rewrite Hy. destruct (is_any y); auto.
Qed.

Lemma tail_regex_eq :
  tail_regex
  = AnyMinPlus :: Mark 1 :: Lit 34%N
    :: [SpaceMinStar; Lit 47%N; SpaceMinStar; Lit 62%N].
Proof. reflexivity. Qed.

(** The attempt at a tag of the pattern's own namespace, up to the [.+?]. *)
Lemma m_own_tag prefix sp q s :
  spaces sp = true ->
  m (cref_regex prefix) (see_tag sp (qualified prefix q) ++ s) 0 no_marks
  = m tail_regex (q ++ tag_tail sp ++ s)
      (length (tag_head sp) + length (qualified prefix []))
      (set_mark 0 (length (tag_head sp)) no_marks).
Proof.
  intros Hsp. rewrite cref_regex_parts. unfold see_tag.
  rewrite (qualified_app prefix q), <- !app_assoc, m_head by auto.
  rewrite m_mark, m_lits. reflexivity.
Qed.

Lemma match_at_empty_identifier prefix sp s :
  spaces sp = true -> forallb not_quote s = true ->
  match_at (cref_regex prefix) (see_tag sp (qualified prefix []) ++ s) = None.
Proof.
  intros Hsp Hs. unfold match_at. rewrite m_own_tag by auto.
  apply spaces_inv in Hsp as (_ & _ & _ & _ & H5 & H6).
  rewrite tail_regex_eq. unfold tag_tail.
  change dq with [34%N]. change (str "/") with [47%N].
  change (str ">") with [62%N]. list_norm.
  rewrite m_any. cbn [is_any]. change (is_any 34%N) with true. cbv iota.
  rewrite lazy_any_no_quote; [reflexivity|].
  rewrite forallb_app. cbn [forallb]. rewrite forallb_app. cbn [forallb].
  rewrite Hs.
  assert (forall ws, forallb is_space ws = true -> forallb not_quote ws = true)
    as Hws.
  { induction ws as [|x ws IH]; simpl; auto.
    intros [Hx Hw]%andb_prop. rewrite IH by auto.
    unfold not_quote. destruct (N.eqb_spec x 34) as [->|]; [discriminate Hx|auto]. }
  rewrite !Hws by auto. reflexivity.
Qed.

Lemma match_at_line_feed prefix sp r1 r2 s :
  spaces sp = true -> forallb not_quote r1 = true ->
  match_at (cref_regex prefix)
    (see_tag sp (qualified prefix (r1 ++ LF :: r2)) ++ s) = None.
Proof.
  intros Hsp Hr1. unfold match_at. rewrite m_own_tag by auto.
  rewrite tail_regex_eq, <- app_assoc. cbn [app].
  destruct r1 as [|x xs]; [reflexivity|].
  cbn [app]. rewrite m_any. simpl in Hr1. apply andb_prop in Hr1 as [_ Hxs].
  destruct (is_any x); [|reflexivity].
  rewrite lazy_any_line_feed by auto. reflexivity.
Qed.

(** A tag at whose [<] the attempt fails, and that has no other [<], is
    copied. *)
Lemma re_sub_tag_nomatch prefix repl sp q s :
  spaces sp = true -> forallb not_lt q = true ->
  match_at (cref_regex prefix) (see_tag sp q ++ s) = None ->
  re_sub (cref_regex prefix) repl (see_tag sp q ++ s)
  = see_tag sp q ++ re_sub (cref_regex prefix) repl s.
Proof.
  intros Hsp Hq Hm. rewrite see_tag_cons in *. simpl app in *.
  rewrite re_sub_nomatch by exact Hm. f_equal.
  apply re_sub_skip_not_lt, tag_body_not_lt; auto.
Qed.

Lemma re_sub_not_lt prefix repl t :
  forallb not_lt t = true -> re_sub (cref_regex prefix) repl t = t.
Proof.
  intros Ht. rewrite <- (app_nil_r t) at 1.
  rewrite re_sub_skip_not_lt, re_sub_nil, app_nil_r by auto. reflexivity.
Qed.

Lemma rewrite_tag_nomatch pre sp q s :
  inert pre = true -> spaces sp = true -> forallb not_lt q = true ->
  (forall prefix s', In prefix PREFIXES ->
     match_at (cref_regex prefix) (see_tag sp q ++ s') = None) ->
  rewrite (pre ++ see_tag sp q ++ s) = pre ++ see_tag sp q ++ rewrite s.
Proof.
  intros Hin Hsp Hq Hm. rewrite !rewrite_eq.
  rewrite re_sub_skip_inert by auto using stops_see_tag.
  rewrite re_sub_tag_nomatch by auto using in_sad.
  rewrite re_sub_skip_inert by auto using stops_see_tag.
  rewrite re_sub_tag_nomatch by auto using in_tro.
  reflexivity.
Qed.

(** X4.  The identifier may not hold a line feed: a tag of an allow-listed
    namespace in whose quoted text a line feed comes before any further
    quote is left as it is, whatever follows it. *)
Theorem rewrite_identifier_with_line_feed (pre post : text) (prefix : string)
    (sp : spacing) (r1 r2 : text) :
  tame pre -> In prefix PREFIXES -> spaces sp = true ->
  forallb not_quote r1 = true -> forallb not_lt r1 = true ->
  forallb not_lt r2 = true ->
  rewrite (pre ++ see_tag sp (qualified prefix (r1 ++ LF :: r2)) ++ post)
  = rewrite pre ++ see_tag sp (qualified prefix (r1 ++ LF :: r2))
    ++ rewrite post.
Proof.
  intros Ht Hp Hsp Hq1 Hl1 Hl2. apply rewrite_tame_app; auto.
  intros p Hin. apply rewrite_tag_nomatch; auto.
  - rewrite qualified_app, !forallb_app. cbn [forallb]. rewrite Hl1, Hl2.
    apply in_prefixes in Hp as [->| ->]; reflexivity.
  - intros prefix' s' Hp'.
    apply in_prefixes in Hp as [->| ->]; apply in_prefixes in Hp' as [->| ->];
      first [apply match_at_line_feed; assumption
            |apply match_at_other; auto; reflexivity].
Qed.

Lemma rewrite_identifier_with_line_feed_witness :
  tame (str "/// ")
  /\ In "SadRogue"%string PREFIXES
  /\ spaces plain_spacing = true
  /\ forallb not_quote (str "Foo.") = true
  /\ forallb not_lt (str "Foo.") = true
  /\ forallb not_lt (str "/// Bar") = true
  /\ rewrite (str "/// "
              ++ see_tag plain_spacing
                   (qualified "SadRogue" (str "Foo." ++ LF :: str "/// Bar"))
              ++ str " and " ++ foo_bar_tag)
     = rewrite (str "/// ")
       ++ see_tag plain_spacing
            (qualified "SadRogue" (str "Foo." ++ LF :: str "/// Bar"))
       ++ rewrite (str " and " ++ foo_bar_tag).
Proof.
  assert (tame (str "/// ")) as Ht by (apply tame_plain; reflexivity).
  split; [exact Ht|]. split; [apply in_sad|]. do 4 (split; [reflexivity|]).
  apply (rewrite_identifier_with_line_feed _ _ "SadRogue" plain_spacing
           (str "Foo.") (str "/// Bar") Ht); solve [apply in_sad|reflexivity].
Defined.

(** X5.  The identifier may not be empty: a tag whose quoted text is just an
    allow-listed namespace and the dot is left as it is, as long as no quote
    and no [<] follows it in the text. *)
Theorem rewrite_empty_identifier (pre post : text) (prefix : string)
    (sp : spacing) :
  tame pre -> In prefix PREFIXES -> spaces sp = true ->
  forallb not_quote post = true -> forallb not_lt post = true ->
  rewrite (pre ++ see_tag sp (qualified prefix []) ++ post)
  = rewrite pre ++ see_tag sp (qualified prefix []) ++ post.
Proof.
  intros Ht Hp Hsp Hq Hl. apply rewrite_tame_app; auto.
  intros p Hin. rewrite !rewrite_eq.
  assert (forallb not_lt (qualified prefix []) = true) as Hql
    by (apply in_prefixes in Hp as [->| ->]; reflexivity).
  assert (forall prefix', In prefix' PREFIXES ->
            match_at (cref_regex prefix')
              (see_tag sp (qualified prefix []) ++ post) = None) as Hm.
  { intros prefix' Hp'.
    apply in_prefixes in Hp as [->| ->]; apply in_prefixes in Hp' as [->| ->];
      first [apply match_at_empty_identifier; assumption
            |apply match_at_other; auto; reflexivity]. }
  rewrite re_sub_skip_inert by auto using stops_see_tag.
  rewrite re_sub_tag_nomatch by auto using in_sad.
  rewrite (re_sub_not_lt "SadRogue" _ post) by auto.
  rewrite re_sub_skip_inert by auto using stops_see_tag.
  rewrite re_sub_tag_nomatch by auto using in_tro.
  rewrite (re_sub_not_lt "Troschuetz" _ post) by auto.
  reflexivity.
Qed.

Lemma rewrite_empty_identifier_witness :
  tame (str "/// ")
  /\ In "Troschuetz"%string PREFIXES
  /\ spaces plain_spacing = true
  /\ forallb not_quote (str " is empty.") = true
  /\ forallb not_lt (str " is empty.") = true
  /\ rewrite (str "/// " ++ see_tag plain_spacing (qualified "Troschuetz" [])
              ++ str " is empty.")
     = rewrite (str "/// ") ++ see_tag plain_spacing (qualified "Troschuetz" [])
       ++ str " is empty.".
Proof.
  assert (tame (str "/// ")) as Ht by (apply tame_plain; reflexivity).
  split; [exact Ht|]. split; [apply in_tro|]. do 3 (split; [reflexivity|]).
  apply (rewrite_empty_identifier _ _ "Troschuetz" plain_spacing Ht);
    solve [apply in_tro|reflexivity].
Defined.

(* ================================================================== *)
(** ** Beyond the claims: decoding and encoding *)

Ltac dlia := zify; Z.to_euclidean_division_equations; lia.

(** Rewrite every comparison of the goal whose value arithmetic settles. *)
Ltac settle_cmp :=
  repeat match goal with
         | |- context [(?a <? ?b)%N] =>
             first [replace (a <? b)%N with true
                      by (symmetry; apply N.ltb_lt; dlia)
                   |replace (a <? b)%N with false
                      by (symmetry; apply N.ltb_ge; dlia)]
         | |- context [(?a <=? ?b)%N] =>
             first [replace (a <=? b)%N with true
                      by (symmetry; apply N.leb_le; dlia)
                   |replace (a <=? b)%N with false
                      by (symmetry; apply N.leb_gt; dlia)]
         | |- context [(?a =? ?b)%N] =>
             first [replace (a =? b)%N with true
                      by (symmetry; apply N.eqb_eq; dlia)
                   |replace (a =? b)%N with false
                      by (symmetry; apply N.eqb_neq; dlia)]
         end.

(** Turn the comparisons among the hypotheses into arithmetic. *)
Ltac cmp_hyps :=
  unfold is_cont in *;
  repeat match goal with
         | H : (_ && _) = true |- _ => apply andb_prop in H as [? ?]
         | H : negb _ = true |- _ => apply negb_true_iff in H
         | H : (_ && _) = false |- _ => apply andb_false_iff in H
         | H : (_ <? _)%N = true |- _ => apply N.ltb_lt in H
         | H : (_ <? _)%N = false |- _ => apply N.ltb_ge in H
         | H : (_ <=? _)%N = true |- _ => apply N.leb_le in H
         | H : (_ <=? _)%N = false |- _ => apply N.leb_gt in H
         | H : (_ =? _)%N = true |- _ => apply N.eqb_eq in H
         | H : (_ =? _)%N = false |- _ => apply N.eqb_neq in H
         end.

Lemma decode_utf8_cons b0 r0 :
  decode_utf8 (b0 :: r0) =
  if (b0 <? 128)%N then cons b0 <$> decode_utf8 r0
  else if ((194 <=? b0) && (b0 <=? 223))%N then
    match r0 with
    | b1 :: r1 =>
        if is_cont b1
        then cons ((b0 - 192) * 64 + cont b1)%N <$> decode_utf8 r1
        else None
    | _ => None
    end
  else if ((224 <=? b0) && (b0 <=? 239))%N then
    match r0 with
    | b1 :: b2 :: r2 =>
        if is_cont b1 && is_cont b2
           && negb ((b0 =? 224) && (b1 <? 160))%N
           && negb ((b0 =? 237) && (160 <=? b1))%N
        then cons ((b0 - 224) * 4096 + cont b1 * 64 + cont b2)%N
               <$> decode_utf8 r2
        else None
    | _ => None
    end
  else if ((240 <=? b0) && (b0 <=? 244))%N then
    match r0 with
    | b1 :: b2 :: b3 :: r3 =>
        if is_cont b1 && is_cont b2 && is_cont b3
           && negb ((b0 =? 240) && (b1 <? 144))%N
           && negb ((b0 =? 244) && (144 <=? b1))%N
        then cons ((b0 - 240) * 262144 + cont b1 * 4096
                   + cont b2 * 64 + cont b3)%N
               <$> decode_utf8 r3
        else None
    | _ => None
    end
  else None.
Proof. reflexivity. Qed.

(** One character: what was decoded encodes to the bytes it came from. *)
Lemma encode_char_1 b0 :
  (b0 <? 128)%N = true ->
  encode_char b0 = Some [b0] /\ is_scalar b0 = true.
Proof.
  intros H. unfold encode_char, is_scalar. rewrite H. cmp_hyps.
  split; [reflexivity|]. settle_cmp. reflexivity.
Qed.

Lemma encode_char_2 b0 b1 :
  ((194 <=? b0) && (b0 <=? 223))%N = true -> is_cont b1 = true ->
  encode_char ((b0 - 192) * 64 + cont b1)%N = Some [b0; b1]
  /\ is_scalar ((b0 - 192) * 64 + cont b1)%N = true.
Proof.
  intros H0 H1. cmp_hyps. unfold encode_char, is_scalar, cont.
  settle_cmp. split; [|reflexivity].
  apply f_equal; repeat (apply (f_equal2 cons); [dlia|]); reflexivity.
Qed.

Lemma encode_char_3 b0 b1 b2 :
  ((224 <=? b0) && (b0 <=? 239))%N = true ->
  (is_cont b1 && is_cont b2
   && negb ((b0 =? 224) && (b1 <? 160))%N
   && negb ((b0 =? 237) && (160 <=? b1))%N) = true ->
  encode_char ((b0 - 224) * 4096 + cont b1 * 64 + cont b2)%N
  = Some [b0; b1; b2]
  /\ is_scalar ((b0 - 224) * 4096 + cont b1 * 64 + cont b2)%N = true.
Proof.
  intros H0 H1. cmp_hyps. unfold encode_char, is_scalar, cont.
  repeat match goal with H : _ \/ _ |- _ => destruct H end; cmp_hyps;
    destruct (N.lt_trichotomy b0 237) as [?|[?|?]];
    try (exfalso; lia); settle_cmp; cbn [andb orb]; (split; [|reflexivity]);
    apply f_equal; repeat (apply (f_equal2 cons); [dlia|]); reflexivity.
Qed.

Lemma encode_char_4 b0 b1 b2 b3 :
  ((240 <=? b0) && (b0 <=? 244))%N = true ->
  (is_cont b1 && is_cont b2 && is_cont b3
   && negb ((b0 =? 240) && (b1 <? 144))%N
   && negb ((b0 =? 244) && (144 <=? b1))%N) = true ->
  encode_char ((b0 - 240) * 262144 + cont b1 * 4096
               + cont b2 * 64 + cont b3)%N
  = Some [b0; b1; b2; b3]
  /\ is_scalar ((b0 - 240) * 262144 + cont b1 * 4096
                + cont b2 * 64 + cont b3)%N = true.
Proof.
  intros H0 H1. cmp_hyps. unfold encode_char, is_scalar, cont.
  repeat match goal with H : _ \/ _ |- _ => destruct H end; cmp_hyps;
    try (exfalso; lia); settle_cmp; cbn [andb orb]; (split; [|reflexivity]);
    apply f_equal; repeat (apply (f_equal2 cons); [dlia|]); reflexivity.
Qed.

Lemma encode_utf8_cons c t b bs :
  encode_char c = Some b -> encode_utf8 t = Some bs ->
  encode_utf8 (c :: t) = Some (b ++ bs).
Proof. intros Hc Ht. simpl. rewrite Hc, Ht. reflexivity. Qed.

(** What strict decoding accepts, it gives back on encoding, and it yields
    scalar values only. *)
Lemma decode_utf8_spec n :
  forall bs t, length bs <= n -> decode_utf8 bs = Some t ->
  encode_utf8 t = Some bs /\ forallb is_scalar t = true.
Proof.
  induction n as [|n IH]; intros [|b0 r0] t Hl; simpl in Hl; try lia;
    try (intros [= <-]; auto).
  rewrite decode_utf8_cons.
  destruct (b0 <? 128)%N eqn:E1.
  { intros (t' & Hd & ->)%fmap_Some.
    destruct (IH r0 t') as [He Hs]; [lia|auto|].
    destruct (encode_char_1 b0 E1) as [Hc Hsc].
    split; [apply (encode_utf8_cons _ _ [b0]); auto|].
    simpl. rewrite Hsc, Hs. reflexivity. }
  destruct ((194 <=? b0) && (b0 <=? 223))%N eqn:E2.
  { destruct r0 as [|b1 r1]; [discriminate|].
    destruct (is_cont b1) eqn:C1; [|discriminate].
    intros (t' & Hd & ->)%fmap_Some. simpl in Hl.
    destruct (IH r1 t') as [He Hs]; [lia|auto|].
    destruct (encode_char_2 b0 b1 E2 C1) as [Hc Hsc].
    split; [apply (encode_utf8_cons _ _ [b0; b1]); auto|].
    cbn [forallb]. rewrite Hsc, Hs. reflexivity. }
  destruct ((224 <=? b0) && (b0 <=? 239))%N eqn:E3.
  { destruct r0 as [|b1 [|b2 r2]]; try discriminate.
    match goal with |- (if ?c then _ else _) = _ -> _ => destruct c eqn:C end;
      [|discriminate].
    intros (t' & Hd & ->)%fmap_Some. simpl in Hl.
    destruct (IH r2 t') as [He Hs]; [lia|auto|].
    destruct (encode_char_3 b0 b1 b2 E3 C) as [Hc Hsc].
    split; [apply (encode_utf8_cons _ _ [b0; b1; b2]); auto|].
    cbn [forallb]. rewrite Hsc, Hs. reflexivity. }
  destruct ((240 <=? b0) && (b0 <=? 244))%N eqn:E4; [|discriminate].
  destruct r0 as [|b1 [|b2 [|b3 r3]]]; try discriminate.
  match goal with |- (if ?c then _ else _) = _ -> _ => destruct c eqn:C end;
    [|discriminate].
  intros (t' & Hd & ->)%fmap_Some. simpl in Hl.
  destruct (IH r3 t') as [He Hs]; [lia|auto|].
  destruct (encode_char_4 b0 b1 b2 b3 E4 C) as [Hc Hsc].
  split; [apply (encode_utf8_cons _ _ [b0; b1; b2; b3]); auto|].
  cbn [forallb]. rewrite Hsc, Hs. reflexivity.
Qed.

Lemma decode_encode bs t :
  decode_utf8 bs = Some t -> encode_utf8 t = Some bs.
Proof. intros H. eapply decode_utf8_spec; eauto. Qed.

Lemma decode_scalar bs t :
  decode_utf8 bs = Some t -> forallb is_scalar t = true.
Proof. intros H. eapply decode_utf8_spec; eauto. Qed.

(** One character, the other way round: a scalar value is encoded, and the
    bytes decode to it. *)
Lemma decode_encode_char c r :
  is_scalar c = true ->
  exists b, encode_char c = Some b
            /\ decode_utf8 (b ++ r) = cons c <$> decode_utf8 r.
Proof.
  unfold is_scalar, encode_char. intros Hs.
  destruct (c <? 128)%N eqn:E1.
  { eexists; split; [reflexivity|]. cbn [app]. rewrite decode_utf8_cons, E1.
    reflexivity. }
  destruct (c <? 2048)%N eqn:E2.
  { eexists; split; [reflexivity|]. cbn [app]. rewrite decode_utf8_cons.
    cmp_hyps. unfold is_cont, cont. settle_cmp. cbn [andb].
    f_equal. f_equal. dlia. }
  destruct (c <? 65536)%N eqn:E3.
  { assert (((55296 <=? c) && (c <=? 57343))%N = false) as Hsur.
    { apply orb_prop in Hs as [Hs|Hs]; cmp_hyps.
      - apply andb_false_iff; left; apply N.leb_gt; lia.
      - apply andb_false_iff; right; apply N.leb_gt; lia. }
    rewrite Hsur. eexists; split; [reflexivity|]. cbn [app].
    rewrite decode_utf8_cons. cmp_hyps. unfold is_cont, cont.
    destruct Hsur as [Hsur|Hsur]; cmp_hyps;
      [destruct (N.lt_ge_cases c 4096);
       destruct (N.lt_ge_cases c 53248)|];
      settle_cmp; cbn [andb negb]; f_equal; f_equal; dlia. }
  apply orb_prop in Hs as [Hs|Hs]; cmp_hyps; [lia|].
  settle_cmp. eexists; split; [reflexivity|]. cbn [app].
  rewrite decode_utf8_cons. unfold is_cont, cont.
  destruct (N.lt_ge_cases c 262144); destruct (N.lt_ge_cases c 1048576);
    try lia; settle_cmp; cbn [andb negb]; f_equal; f_equal; dlia.
Qed.

Lemma encode_char_scalar c b : encode_char c = Some b -> is_scalar c = true.
Proof.
  unfold encode_char, is_scalar.
  destruct (c <? 128)%N eqn:E1; [cmp_hyps; settle_cmp; reflexivity|].
  destruct (c <? 2048)%N eqn:E2; [cmp_hyps; settle_cmp; reflexivity|].
  destruct (c <? 65536)%N eqn:E3.
  - destruct ((55296 <=? c) && (c <=? 57343))%N eqn:E4; [discriminate|].
    intros _. cmp_hyps. destruct E4; cmp_hyps; settle_cmp; reflexivity.
  - destruct (c <? 1114112)%N eqn:E4; [|discriminate].
    intros _. cmp_hyps. settle_cmp. reflexivity.
Qed.

Lemma encode_decode t bs :
  encode_utf8 t = Some bs -> decode_utf8 bs = Some t.
Proof.
  revert bs; induction t as [|c t IH]; intros bs; simpl.
  - intros [= <-]. reflexivity.
  - destruct (encode_char c) as [b|] eqn:Hc; [|discriminate].
    destruct (encode_utf8 t) as [bs'|] eqn:Ht; [|discriminate].
    intros [= <-].
    destruct (decode_encode_char c bs' (encode_char_scalar _ _ Hc))
      as (b' & Hb & Hd).
    rewrite Hc in Hb. injection Hb as <-. rewrite Hd, (IH bs'); auto.
Qed.

Lemma encode_total t :
  forallb is_scalar t = true -> exists bs, encode_utf8 t = Some bs.
Proof.
  induction t as [|c t IH]; simpl; [eauto|].
  intros [Hc Ht]%andb_prop. destruct (IH Ht) as [bs ->].
  destruct (decode_encode_char c [] Hc) as (b & -> & _). eauto.
Qed.

(* ================================================================== *)
(** ** Beyond the claims: one file *)

Lemma processable_inv fs path :
  processable fs path = true ->
  exists f t, fs !! path = Some f /\ f_readable f = true
              /\ f_writable f = true /\ decode_utf8 (f_data f) = Some t.
Proof.
  unfold processable. destruct (fs !! path) as [f|]; [|discriminate].
  destruct (decode_utf8 (f_data f)) as [t|] eqn:Hd; rewrite ?andb_false_r;
    [|discriminate].
  rewrite andb_true_r. intros [Hr Hw]%andb_prop. exists f, t. auto.
Qed.

Lemma rewrite_scalar t :
  forallb is_scalar t = true -> forallb is_scalar (rewrite t) = true.
Proof. apply sublist_forallb, sublist_rewrite. Qed.

Lemma process_file_processable (w : world) (path : string) :
  processable (w_fs w) path = true ->
  exists t out,
    file_text (w_fs w) path = Some t
    /\ decode_utf8 out = Some (rewrite t)
    /\ process_file path w
       = (Ok tt,
          World (w_tree w) (<[path := File out true true]> (w_fs w))
            (w_tty w) (w_stdin w) (w_stdout w) (w_stderr w)
            (w_opened w ++ opens_of path)).
Proof.
  intros (f & t & Hf & Hr & Hw & Hd)%processable_inv.
  destruct (encode_total (rewrite t)) as [out He].
  { apply rewrite_scalar. eapply decode_scalar; eauto. }
  exists t, out. split; [unfold file_text; rewrite Hf; exact Hd|].
  split; [apply encode_decode, He|].
  apply (process_file_ok w path f t out); auto.
Qed.

(** X6.  A file that is there, readable, writable and valid UTF-8 is
    processed without error: both opens are logged, and afterwards the file
    holds bytes that decode to the rewritten text of what it held before.
    In particular the encoding never fails. *)
Theorem process_file_succeeds (w : world) (path : string) :
  processable (w_fs w) path = true ->
  exists t out,
    file_text (w_fs w) path = Some t
    /\ decode_utf8 out = Some (rewrite t)
    /\ process_file path w
       = (Ok tt,
          World (w_tree w) (<[path := File out true true]> (w_fs w))
            (w_tty w) (w_stdin w) (w_stdout w) (w_stderr w)
            (w_opened w ++ opens_of path)).
Proof. apply process_file_processable. Qed.

Lemma process_file_succeeds_witness :
  exists t out,
    file_text (w_fs (one_file_world "Point.cs" point_before)) "Point.cs"
    = Some t
    /\ decode_utf8 out = Some (rewrite t)
    /\ process_file "Point.cs" (one_file_world "Point.cs" point_before)
       = (Ok tt,
          World (w_tree (one_file_world "Point.cs" point_before))
            (<["Point.cs"%string := File out true true]>
               (w_fs (one_file_world "Point.cs" point_before)))
            (w_tty (one_file_world "Point.cs" point_before))
            (w_stdin (one_file_world "Point.cs" point_before))
            (w_stdout (one_file_world "Point.cs" point_before))
            (w_stderr (one_file_world "Point.cs" point_before))
            (w_opened (one_file_world "Point.cs" point_before)
             ++ opens_of "Point.cs")).
Proof.
  apply (process_file_succeeds (one_file_world "Point.cs" point_before)).
  vm_compute. reflexivity.
Defined.

Lemma process_file_unprocessable (w : world) (path : string) :
  processable (w_fs w) path = false ->
  exists e,
    (e = OSError path \/ e = UnicodeDecodeError)
    /\ fst (process_file path w) = Raise e
    /\ w_fs (snd (process_file path w)) = w_fs w.
Proof.
  unfold processable, process_file, read_binary, open_wb, write_all, log_open,
    set_file, bind, ret. simpl.
  destruct (w_fs w !! path) as [f|] eqn:Hf; simpl; [|eauto].
  destruct (f_readable f); simpl; [|eauto].
  destruct (decode_utf8 (f_data f)) as [t|]; simpl; [|eauto].
  rewrite Hf. destruct (f_writable f); simpl; [discriminate|eauto].
Qed.

(** X7.  A file that is missing, unreadable, not valid UTF-8 or not writable
    makes [process_file] raise an [OSError] for that path or a
    [UnicodeDecodeError], and no file has changed: the content is only
    replaced once everything that can fail is over. *)
Theorem process_file_fails (w : world) (path : string) :
  processable (w_fs w) path = false ->
  exists e,
    (e = OSError path \/ e = UnicodeDecodeError)
    /\ fst (process_file path w) = Raise e
    /\ w_fs (snd (process_file path w)) = w_fs w.
Proof. apply process_file_unprocessable. Qed.

Lemma process_file_fails_witness :
  exists e,
    (e = OSError "a.cs" \/ e = UnicodeDecodeError)
    /\ fst (process_file "a.cs" (one_file_world "a.cs" [104; 233]%N)) = Raise e
    /\ w_fs (snd (process_file "a.cs" (one_file_world "a.cs" [104; 233]%N)))
       = w_fs (one_file_world "a.cs" [104; 233]%N).
Proof.
  apply (process_file_fails (one_file_world "a.cs" [104; 233]%N)).
  vm_compute. reflexivity.
Defined.

(** X8.  A valid file in whose text neither pattern has a match is written
    back byte for byte: the run leaves the file system as it found it. *)
Theorem process_file_without_match (w : world) (path : string) (t : text) :
  processable (w_fs w) path = true ->
  file_text (w_fs w) path = Some t ->
  (forall re, In re CREF_REGEXES -> ~ occurs (lang re) t) ->
  fst (process_file path w) = Ok tt
  /\ w_fs (snd (process_file path w)) = w_fs w.
Proof.
  intros Hp Ht Hno.
  pose proof Hp as (f & t' & Hf & Hr & Hw & Hd)%processable_inv.
  unfold file_text in Ht. rewrite Hf, Hd in Ht. injection Ht as ->.
  assert (rewrite t = t) as Hid by (apply rewrite_no_occurrence; auto).
  rewrite (process_file_ok w path f t (f_data f)); auto.
  - split; [reflexivity|]. simpl. apply insert_id. rewrite Hf.
    destruct f as [d r wr]; simpl in *. subst. reflexivity.
  - rewrite Hid. apply decode_encode, Hd.
Qed.

Lemma process_file_without_match_witness :
  fst (process_file "a.cs" (one_file_world "a.cs" (ascii_bytes "// plain")))
  = Ok tt
  /\ w_fs (snd (process_file "a.cs"
                  (one_file_world "a.cs" (ascii_bytes "// plain"))))
     = w_fs (one_file_world "a.cs" (ascii_bytes "// plain")).
Proof.
  apply (process_file_without_match _ _ (str "// plain")).
  - vm_compute. reflexivity.
  - vm_compute. reflexivity.
  - intros re [<-|[<-|[]]] Hoc; apply occurs_search in Hoc;
      vm_compute in Hoc; discriminate.
Defined.

(** X9.  Strict decoding and encoding are inverse to each other: bytes
    decode to a text exactly when the text encodes to those bytes.  So what
    the script writes can be read back, and a valid file it does not change
    as text it does not change as bytes. *)
Theorem utf8_round_trip (bs : bytes) (t : text) :
  decode_utf8 bs = Some t <-> encode_utf8 t = Some bs.
Proof. split; [apply decode_encode|apply encode_decode]. Qed.

(* ================================================================== *)
(** ** Beyond the claims: the whole run *)

Lemma for_each_app {A} (l1 l2 : list A) (body : A -> IO unit) w :
  for_each (l1 ++ l2) body w
  = bind (for_each l1 body) (fun _ => for_each l2 body) w.
Proof.
  revert w; induction l1 as [|a l1 IH]; intros w; [reflexivity|].
  simpl. unfold bind in *. destruct (body a w) as [[[]|e] w1];
    [apply IH|reflexivity].
Qed.

Lemma for_each_cs {A} (g : A -> string) (l : list A) w :
  for_each l (fun a => if endswith (g a) ".cs" then process_file (g a)
                       else ret tt) w
  = for_each (List.filter (fun p => endswith p ".cs") (map g l)) process_file w.
Proof.
  revert w; induction l as [|a l IH]; intros w; [reflexivity|].
  simpl. destruct (endswith (g a) ".cs"); simpl.
  - unfold bind. destruct (process_file (g a) w) as [[[]|e] w1]; auto.
  - apply IH.
Qed.

Lemma for_each_walk walk w :
  for_each walk (fun '(path, _, files) =>
    for_each files (fun name =>
      let file_path := os_path_join path [name] in
      if endswith file_path ".cs" then process_file file_path
      else ret tt)) w
  = for_each (cs_paths walk) process_file w.
Proof.
  revert w; induction walk as [|[[path dirs] files] walk IH]; intros w;
    [reflexivity|].
  cbn [for_each cs_paths flat_map]. rewrite for_each_app. unfold bind.
  rewrite (for_each_cs (fun name => os_path_join path [name]) files w).
  destruct (for_each _ process_file w) as [[[]|e] w1];
    [apply IH|reflexivity].
Qed.

Lemma confirm_continue_prompt_eq w resp rest :
  w_stdin w = resp :: rest ->
  confirm_continue_prompt w
  = (Ok (bool_decide (resp ∈ [str "y"; str "Y"])), answered w rest).
Proof.
  intros Hin. unfold confirm_continue_prompt, input, print_newline,
    write_prompt, write_stdout, write_stderr, bind, ret, answered.
  destruct (w_tty w); simpl; rewrite Hin; simpl.
  - reflexivity.
  - rewrite <- app_assoc, app_nil_r. reflexivity.
Qed.

(** After [y] or [Y] the run is the loop over the [.cs] paths of the walk,
    in the order of the walk. *)
Lemma main_confirmed FILE_PATH w resp rest :
  w_stdin w = resp :: rest -> resp = str "y" \/ resp = str "Y" ->
  main FILE_PATH w
  = for_each (cs_paths (walk_of FILE_PATH w)) process_file (answered w rest).
Proof.
  intros Hin Hyes. unfold main, bind at 1.
  rewrite (confirm_continue_prompt_eq w resp rest Hin).
  rewrite bool_decide_eq_true_2
    by (rewrite !elem_of_cons; tauto).
  cbn [negb]. unfold bind, walk_cs_path. apply for_each_walk.
Qed.

Lemma processable_insert fs a out q :
  decode_utf8 out <> None ->
  processable (<[a := File out true true]> fs) q
  = if decide (a = q) then true else processable fs q.
Proof.
  intros Hd. unfold processable. rewrite lookup_insert.
  destruct (decide (a = q)); auto. simpl.
  destruct (decode_utf8 out); congruence.
Qed.

Lemma file_text_insert fs a out q :
  file_text (<[a := File out true true]> fs) q
  = if decide (a = q) then decode_utf8 out else file_text fs q.
Proof.
  unfold file_text. rewrite lookup_insert. destruct (decide (a = q)); auto.
Qed.

(** Whatever happens to it, processing a file opens that file only and
    leaves the console alone. *)
Lemma process_file_frame p w :
  (exists new, w_opened (snd (process_file p w)) = w_opened w ++ new
               /\ forall q md, In (q, md) new -> q = p)
  /\ same_console w (snd (process_file p w)).
Proof.
  unfold same_console, process_file, read_binary, open_wb, write_all, log_open,
    set_file, lift_option, raise, bind, ret. simpl.
  assert (forall q md, In (q, md) [(p, RB)] -> q = p) as H1
    by (intros q md [[= <- _]|[]]; auto).
  assert (forall q md, In (q, md) ([(p, RB)] ++ [(p, WB)]) -> q = p) as H2
    by (intros q md [[= <- _]|[[= <- _]|[]]]; auto).
  destruct (w_fs w !! p) as [f|] eqn:Hf; simpl; [|eauto 12].
  destruct (f_readable f); simpl; [|eauto 12].
  destruct (decode_utf8 (f_data f)) as [t|]; simpl; [|eauto 12].
  rewrite Hf. destruct (f_writable f); simpl;
    [|rewrite <- app_assoc; eauto 12].
  destruct (encode_utf8 (rewrite t)); simpl; rewrite <- app_assoc; eauto 12.
Qed.

(** The loop over files that can all be processed. *)
Lemma for_each_process_ok l :
  forall w,
    NoDup l -> (forall p, In p l -> processable (w_fs w) p = true) ->
    exists fs',
      for_each l process_file w
      = (Ok tt, World (w_tree w) fs' (w_tty w) (w_stdin w) (w_stdout w)
                  (w_stderr w) (w_opened w ++ flat_map opens_of l))
      /\ (forall p, ~ In p l -> fs' !! p = w_fs w !! p)
      /\ (forall p, In p l ->
            exists t, file_text (w_fs w) p = Some t
                      /\ file_text fs' p = Some (rewrite t)).
Proof.
  induction l as [|a l IH]; intros w Hnd Hall.
  - exists (w_fs w). simpl. rewrite app_nil_r. destruct w; simpl.
    split; [reflexivity|]. split; [auto|intros ? []].
  - apply NoDup_cons in Hnd as [Ha Hnd]. rewrite list_elem_of_In in Ha.
    destruct (process_file_processable w a) as (t & out & Ht & Hout & Hrun);
      [apply Hall; left; auto|].
    set (w1 := World (w_tree w) (<[a := File out true true]> (w_fs w))
                 (w_tty w) (w_stdin w) (w_stdout w) (w_stderr w)
                 (w_opened w ++ opens_of a)) in *.
    destruct (IH w1 Hnd) as (fs' & Hrun' & Hout' & Hin').
    { intros p Hp. simpl. rewrite processable_insert by congruence.
      destruct (decide (a = p)); auto. apply Hall; right; auto. }
    exists fs'. split; [|split].
    + simpl for_each. unfold bind. rewrite Hrun, Hrun'. simpl.
      rewrite <- app_assoc. reflexivity.
    + intros p Hp. rewrite Hout' by (intros ?; apply Hp; right; auto).
      simpl. apply lookup_insert_ne. intros <-. apply Hp; left; auto.
    + intros p [<-|Hp].
      * exists t. split; [exact Ht|]. unfold file_text.
        rewrite (Hout' a Ha). simpl. rewrite lookup_insert_eq. exact Hout.
      * destruct (Hin' p Hp) as (t' & Ht' & Ht''). exists t'. split; auto.
        simpl in Ht'. rewrite file_text_insert in Ht'.
        destruct (decide (a = p)) as [<-|]; [contradiction|exact Ht'].
Qed.

(** The loop up to the first file that cannot be processed. *)
Lemma for_each_process_fail l1 p l2 :
  forall w,
    (forall q, In q l1 -> processable (w_fs w) q = true) ->
    processable (w_fs w) p = false ->
    exists e w',
      (e = OSError p \/ e = UnicodeDecodeError)
      /\ for_each (l1 ++ p :: l2) process_file w = (Raise e, w')
      /\ (forall q, ~ In q l1 -> w_fs w' !! q = w_fs w !! q)
      /\ (exists new, w_opened w' = w_opened w ++ new
                      /\ forall q md, In (q, md) new -> In q l1 \/ q = p)
      /\ same_console w w'.
Proof.
  induction l1 as [|a l1 IH]; intros w Hall Hp.
  - destruct (process_file_unprocessable w p Hp) as (e & He & Hr & Hfs).
    exists e, (snd (process_file p w)). split; [exact He|].
    simpl. unfold bind. destruct (process_file p w) as [r w'] eqn:E.
    simpl in *. subst r. split; [reflexivity|]. split; [intros; rewrite Hfs; auto|].
    pose proof (process_file_frame p w) as [(new & Hn & Hin) Hc].
    rewrite E in Hn, Hc. simpl in Hn, Hc.
    split; [exists new; split; [auto|intros q md Hq; right; eauto]|exact Hc].
  - destruct (process_file_processable w a) as (t & out & Ht & Hout & Hrun);
      [apply Hall; left; auto|].
    set (w1 := World (w_tree w) (<[a := File out true true]> (w_fs w))
                 (w_tty w) (w_stdin w) (w_stdout w) (w_stderr w)
                 (w_opened w ++ opens_of a)) in *.
    assert (a <> p) as Hap.
    { intros <-. rewrite Hall in Hp by (left; auto). discriminate. }
    destruct (IH w1) as (e & w' & He & Hrun' & Hfs & (new & Hn & Hin) & Hc).
    { intros q Hq. simpl. rewrite processable_insert by congruence.
      destruct (decide (a = q)); auto. apply Hall; right; auto. }
    { simpl. rewrite processable_insert by congruence.
      destruct (decide (a = p)); [contradiction|auto]. }
    exists e, w'. split; [exact He|]. split; [|split; [|split]].
    + simpl. unfold bind. rewrite Hrun. exact Hrun'.
    + intros q Hq. rewrite Hfs by (intros ?; apply Hq; right; auto).
      simpl. apply lookup_insert_ne. intros <-. apply Hq; left; auto.
    + exists (opens_of a ++ new). rewrite Hn. simpl. rewrite <- app_assoc.
      split; [reflexivity|]. intros q md [[= <- _]|[[= <- _]|Hq]]; auto.
      destruct (Hin q md Hq); auto.
    + exact Hc.
Qed.

Lemma for_each_process_frame l :
  forall w,
    (exists new, w_opened (snd (for_each l process_file w)) = w_opened w ++ new
                 /\ forall q md, In (q, md) new -> In q l)
    /\ same_console w (snd (for_each l process_file w)).
Proof.
  induction l as [|a l IH]; intros w.
  - simpl. split; [|split_and!; reflexivity].
    exists []. rewrite app_nil_r. split; [reflexivity|intros ? ? []].
  - simpl. unfold bind.
    pose proof (process_file_frame a w) as [(n1 & E1 & H1) (C1 & C1' & C1e & C1t)].
    destruct (process_file a w) as [[[]|e] w1]; simpl in *.
    + destruct (IH w1) as [(n2 & E2 & H2) (C2 & C2' & C2e & C2t)]. split.
      * exists (n1 ++ n2). rewrite E2, E1, app_assoc. split; [reflexivity|].
        intros q md [Hq|Hq]%in_app_or; [left; symmetry; eauto|right; eauto].
      * split_and!; congruence.
    + split; [|split_and!; assumption].
      exists n1. split; [assumption|]. intros q md Hq. left. symmetry. eauto.
Qed.

(** X10.  After [y] or [Y], when the [.cs] paths of the walk are distinct and
    each names a readable, writable file that is valid UTF-8, [main] returns
    normally; it has opened every one of them, in the order of the walk, for
    reading and then for writing; each of them holds the rewritten text of
    what it held; and every other file is as it was. *)
Theorem main_rewrites_every_cs_file (FILE_PATH : string) (w : world)
    (resp : text) (rest : list text) :
  w_stdin w = resp :: rest -> resp = str "y" \/ resp = str "Y" ->
  NoDup (cs_paths (walk_of FILE_PATH w)) ->
  (forall p, In p (cs_paths (walk_of FILE_PATH w)) ->
     processable (w_fs w) p = true) ->
  fst (main FILE_PATH w) = Ok tt
  /\ w_opened (snd (main FILE_PATH w))
     = w_opened w ++ flat_map opens_of (cs_paths (walk_of FILE_PATH w))
  /\ (forall p, ~ In p (cs_paths (walk_of FILE_PATH w)) ->
        w_fs (snd (main FILE_PATH w)) !! p = w_fs w !! p)
  /\ (forall p, In p (cs_paths (walk_of FILE_PATH w)) ->
        exists t, file_text (w_fs w) p = Some t
                  /\ file_text (w_fs (snd (main FILE_PATH w))) p
                     = Some (rewrite t)).
Proof.
  intros Hin Hyes Hnd Hall. rewrite (main_confirmed _ _ _ _ Hin Hyes).
  destruct (for_each_process_ok _ (answered w rest) Hnd Hall)
    as (fs' & -> & Hout & Hcs).
  simpl. auto.
Qed.

Lemma main_rewrites_every_cs_file_witness :
  fst (main "/repo/GoRogue.Docs" (example_world (str "Y"))) = Ok tt
  /\ w_opened (snd (main "/repo/GoRogue.Docs" (example_world (str "Y"))))
     = w_opened (example_world (str "Y"))
       ++ flat_map opens_of
            (cs_paths (walk_of "/repo/GoRogue.Docs" (example_world (str "Y"))))
  /\ (forall p,
        ~ In p (cs_paths (walk_of "/repo/GoRogue.Docs" (example_world (str "Y")))) ->
        w_fs (snd (main "/repo/GoRogue.Docs" (example_world (str "Y")))) !! p
        = w_fs (example_world (str "Y")) !! p)
  /\ (forall p,
        In p (cs_paths (walk_of "/repo/GoRogue.Docs" (example_world (str "Y")))) ->
        exists t,
          file_text (w_fs (example_world (str "Y"))) p = Some t
          /\ file_text
               (w_fs (snd (main "/repo/GoRogue.Docs" (example_world (str "Y"))))) p
             = Some (rewrite t)).
Proof.
  apply (main_rewrites_every_cs_file "/repo/GoRogue.Docs"
           (example_world (str "Y")) (str "Y") []).
  - reflexivity.
  - right; reflexivity.
  - apply (bool_decide_unpack _). vm_compute. exact I.
  - intros p [<-|[<-|[]]]; vm_compute; reflexivity.
Defined.

(** X11.  After [y] or [Y], the first [.cs] path of the walk that does not
    name a readable, writable file that is valid UTF-8 ends the run with an
    [OSError] for that path or a [UnicodeDecodeError].  Only the files
    before it have changed, and no file after it was opened. *)
Theorem main_stops_at_first_failure (FILE_PATH : string) (w : world)
    (resp : text) (rest : list text) (l1 : list string) (p : string)
    (l2 : list string) :
  w_stdin w = resp :: rest -> resp = str "y" \/ resp = str "Y" ->
  cs_paths (walk_of FILE_PATH w) = l1 ++ p :: l2 ->
  (forall q, In q l1 -> processable (w_fs w) q = true) ->
  processable (w_fs w) p = false ->
  exists e,
    (e = OSError p \/ e = UnicodeDecodeError)
    /\ fst (main FILE_PATH w) = Raise e
    /\ (forall q, ~ In q l1 ->
          w_fs (snd (main FILE_PATH w)) !! q = w_fs w !! q)
    /\ (exists new,
          w_opened (snd (main FILE_PATH w)) = w_opened w ++ new
          /\ forall q md, In (q, md) new -> In q l1 \/ q = p).
Proof.
  intros Hin Hyes Hl Hall Hp. rewrite (main_confirmed _ _ _ _ Hin Hyes), Hl.
  destruct (for_each_process_fail l1 p l2 (answered w rest) Hall Hp)
    as (e & w' & He & -> & Hfs & Hnew & _).
  exists e. simpl. auto.
Qed.

Lemma main_stops_at_first_failure_witness :
  exists e,
    (e = OSError "/repo/GoRogue.Docs/../GoRogue/b.cs"
     \/ e = UnicodeDecodeError)
    /\ fst (main "/repo/GoRogue.Docs" broken_world) = Raise e
    /\ (forall q, ~ In q ["/repo/GoRogue.Docs/../GoRogue/a.cs"%string] ->
          w_fs (snd (main "/repo/GoRogue.Docs" broken_world)) !! q
          = w_fs broken_world !! q)
    /\ (exists new,
          w_opened (snd (main "/repo/GoRogue.Docs" broken_world))
          = w_opened broken_world ++ new
          /\ forall q md,
               In (q, md) new ->
               In q ["/repo/GoRogue.Docs/../GoRogue/a.cs"%string]
               \/ q = "/repo/GoRogue.Docs/../GoRogue/b.cs"%string).
Proof.
  apply (main_stops_at_first_failure "/repo/GoRogue.Docs" broken_world
           (str "Y") [] ["/repo/GoRogue.Docs/../GoRogue/a.cs"%string]
           "/repo/GoRogue.Docs/../GoRogue/b.cs"
           ["/repo/GoRogue.Docs/../GoRogue/c.cs"%string]).
  - reflexivity.
  - right; reflexivity.
  - reflexivity.
  - intros q [<-|[]]; vm_compute; reflexivity.
  - vm_compute; reflexivity.
Defined.

(** At the end of the input nothing happens after the prompt. *)
Lemma main_eof FILE_PATH w :
  w_stdin w = [] ->
  main FILE_PATH w
  = (Raise EOFError,
     World (w_tree w) (w_fs w) (w_tty w) []
       (w_stdout w ++ (if w_tty w then [] else [PROMPT]))
       (w_stderr w ++ (if w_tty w then [PROMPT] else []))
       (w_opened w)).
Proof.
  intros Hin. unfold main, confirm_continue_prompt, input, write_prompt,
    write_stdout, write_stderr, bind.
  destruct (w_tty w); simpl; rewrite Hin, app_nil_r; reflexivity.
Qed.

(** X12.  Whatever the answer and however the run ends, [main] reads one
    line, writes the prompt once and prints one newline, and nothing else.
    The prompt goes to standard error when standard input and output are
    terminals, and to standard output otherwise; the newline always goes to
    standard output. *)
Theorem main_console (FILE_PATH : string) (w : world) (resp : text)
    (rest : list text) :
  w_stdin w = resp :: rest ->
  w_stdin (snd (main FILE_PATH w)) = rest
  /\ w_stdout (snd (main FILE_PATH w))
     = w_stdout w ++ (if w_tty w then [] else [PROMPT]) ++ [[LF]]
  /\ w_stderr (snd (main FILE_PATH w))
     = w_stderr w ++ (if w_tty w then [PROMPT] else []).
Proof.
  intros Hin.
  destruct (decide (resp ∈ [str "y"; str "Y"])) as [Hyes|Hno].
  - rewrite (main_confirmed _ _ _ _ Hin)
      by (rewrite !elem_of_cons, elem_of_nil in Hyes; tauto).
    destruct (for_each_process_frame (cs_paths (walk_of FILE_PATH w))
                (answered w rest)) as [_ (Ho & Hi & He & _)].
    rewrite Ho, Hi, He. auto.
  - assert (main FILE_PATH w = (Ok tt, answered w rest)) as ->.
    { unfold main, bind at 1.
      rewrite (confirm_continue_prompt_eq w resp rest Hin).
      rewrite bool_decide_eq_false_2 by exact Hno. reflexivity. }
    simpl. auto.
Qed.

Lemma main_console_witness :
  w_stdin (snd (main "/repo/GoRogue.Docs" (at_terminal broken_world))) = []
  /\ w_stdout (snd (main "/repo/GoRogue.Docs" (at_terminal broken_world)))
     = w_stdout (at_terminal broken_world) ++ [] ++ [[LF]]
  /\ w_stderr (snd (main "/repo/GoRogue.Docs" (at_terminal broken_world)))
     = w_stderr (at_terminal broken_world) ++ [PROMPT].
Proof.
  apply (main_console "/repo/GoRogue.Docs" (at_terminal broken_world)
           (str "Y") []).
  reflexivity.
Defined.

(** X13.  When the input is at its end, the prompt is written (to standard
    error at a terminal, to standard output otherwise), [main] raises
    [EOFError], and nothing else has happened: no newline, no open, no
    change to a file. *)
Theorem main_at_end_of_input (FILE_PATH : string) (w : world) :
  w_stdin w = [] ->
  main FILE_PATH w
  = (Raise EOFError,
     World (w_tree w) (w_fs w) (w_tty w) []
       (w_stdout w ++ (if w_tty w then [] else [PROMPT]))
       (w_stderr w ++ (if w_tty w then [PROMPT] else []))
       (w_opened w)).
Proof. apply main_eof. Qed.

Lemma main_at_end_of_input_witness :
  main "/repo/GoRogue.Docs" (at_terminal (one_file_world "a.cs" point_before))
  = (Raise EOFError,
     World (w_tree (one_file_world "a.cs" point_before))
       (w_fs (one_file_world "a.cs" point_before)) true []
       (w_stdout (one_file_world "a.cs" point_before) ++ [])
       (w_stderr (one_file_world "a.cs" point_before) ++ [PROMPT])
       (w_opened (one_file_world "a.cs" point_before))).
Proof.
  apply (main_at_end_of_input "/repo/GoRogue.Docs"
           (at_terminal (one_file_world "a.cs" point_before))).
  reflexivity.
Defined.

(* ------------------------------------------------------------------ *)
(** *** Where the files are *)

Lemma prefix_refl a : String.prefix a a = true.
Proof.
  induction a as [|c a IH]; simpl; auto. destruct (ascii_dec c c); congruence.
Qed.

Lemma prefix_append a b : String.prefix a (a +:+ b) = true.
Proof.
  induction a as [|c a IH]; simpl; [destruct b; reflexivity|].
  destruct (ascii_dec c c); congruence.
Qed.

Lemma prefix_trans a b c :
  String.prefix a b = true -> String.prefix b c = true ->
  String.prefix a c = true.
Proof.
  revert b c; induction a as [|x a IH]; intros [|y b] [|z c]; simpl;
    try discriminate; auto.
  destruct (ascii_dec x y) as [->|]; [|discriminate].
  destruct (ascii_dec y z) as [->|]; [|discriminate].
  destruct (ascii_dec z z); [|congruence]. apply IH.
Qed.

Lemma join2_prefix path b :
  startswith b "/" = false -> String.prefix path (join2 path b) = true.
Proof.
  intros Hb. unfold join2. rewrite Hb.
  destruct (_ || _); apply prefix_append.
Qed.

Lemma dir_ind' (P : dir -> Prop) :
  (forall files subdirs,
     Forall (fun nd => P (snd nd)) subdirs -> P (Dir files subdirs)) ->
  forall d, P d.
Proof.
  intros H. fix IH 1. intros [files subdirs]. apply H.
  induction subdirs as [|[n d] subdirs IHs]; constructor; [apply IH|apply IHs].
Qed.

(** Every directory the walk yields lies below the top, and its file names
    are as good as those of the tree. *)
Lemma os_walk_below d :
  forall top, names_ok d = true ->
  forall path dirs files, In (path, dirs, files) (os_walk top d) ->
    String.prefix top path = true
    /\ forallb (fun name => negb (startswith name "/")) files = true.
Proof.
  induction d as [fs subdirs IH] using dir_ind'.
  intros top Hok path dirs files Hin. simpl in Hok, Hin.
  apply andb_prop in Hok as [Hfs Hsub].
  destruct Hin as [[= <- <- <-]|Hin]; [auto using prefix_refl|].
  apply in_flat_map in Hin as ([n d] & Hnd & Hin). simpl in Hin.
  rewrite forallb_forall in Hsub. specialize (Hsub _ Hnd). simpl in Hsub.
  apply andb_prop in Hsub as [Hn Hd]. apply negb_true_iff in Hn.
  rewrite Forall_forall in IH. apply list_elem_of_In in Hnd.
  destruct (IH _ Hnd (join2 top n) Hd _ _ _ Hin) as [Hp Hf].
  split; [|exact Hf]. eapply prefix_trans; [apply join2_prefix|]; eauto.
Qed.

Lemma cs_paths_below top d q :
  names_ok d = true -> In q (cs_paths (os_walk top d)) ->
  String.prefix top q = true.
Proof.
  intros Hok Hq. unfold cs_paths in Hq.
  apply in_flat_map in Hq as ([[path dirs] files] & Hw & Hq).
  apply filter_In in Hq as [Hq _]. apply in_map_iff in Hq as (name & <- & Hn).
  destruct (os_walk_below d top Hok _ _ _ Hw) as [Hp Hf].
  rewrite forallb_forall in Hf. specialize (Hf _ Hn).
  apply negb_true_iff in Hf.
  eapply prefix_trans; [exact Hp|]. apply join2_prefix, Hf.
Qed.

Lemma main_opens FILE_PATH w :
  exists new,
    w_opened (snd (main FILE_PATH w)) = w_opened w ++ new
    /\ forall q md, In (q, md) new -> In q (cs_paths (walk_of FILE_PATH w)).
Proof.
  assert (exists new, w_opened w = w_opened w ++ new
            /\ forall q md, In (q, md) new ->
                 In q (cs_paths (walk_of FILE_PATH w))) as Hnone.
  { exists []. rewrite app_nil_r. split; [reflexivity|intros ? ? []]. }
  destruct (w_stdin w) as [|resp rest] eqn:Hin.
  - rewrite (main_eof FILE_PATH w Hin). exact Hnone.
  - destruct (decide (resp ∈ [str "y"; str "Y"])) as [Hyes|Hno].
    + rewrite (main_confirmed _ _ _ _ Hin)
        by (rewrite !elem_of_cons, elem_of_nil in Hyes; tauto).
      apply (for_each_process_frame _ (answered w rest)).
    + assert (main FILE_PATH w = (Ok tt, answered w rest)) as ->;
        [|exact Hnone].
      unfold main, bind at 1.
      rewrite (confirm_continue_prompt_eq w resp rest Hin).
      rewrite bool_decide_eq_false_2 by exact Hno. reflexivity.
Qed.

(** X14.  In a tree whose names do not start with a slash, every path
    [main] opens starts with [CS_PATH]: the run stays below the directory it
    walks, whatever the answer and however it ends. *)
Theorem main_opens_below_cs_path (FILE_PATH : string) (w : world) (d : dir) :
  w_tree w = Some d -> names_ok d = true ->
  exists new,
    w_opened (snd (main FILE_PATH w)) = w_opened w ++ new
    /\ forall q md, In (q, md) new ->
         String.prefix (CS_PATH FILE_PATH) q = true.
Proof.
  intros Hd Hok. destruct (main_opens FILE_PATH w) as (new & Ho & Hin).
  exists new. split; [exact Ho|]. intros q md Hq. apply Hin in Hq.
  unfold walk_of in Hq. rewrite Hd in Hq. eapply cs_paths_below; eauto.
Qed.

Lemma main_opens_below_cs_path_witness :
  exists new,
    w_opened (snd (main "/repo/GoRogue.Docs" (example_world (str "y"))))
    = w_opened (example_world (str "y")) ++ new
    /\ forall q md, In (q, md) new ->
         String.prefix (CS_PATH "/repo/GoRogue.Docs") q = true.
Proof.
  apply (main_opens_below_cs_path "/repo/GoRogue.Docs"
           (example_world (str "y"))
           (Dir ["Point.cs"; "Notes.CS"]%string
              [("Sub"%string, Dir ["Gen.cs"]%string [])]));
    reflexivity.
Defined.

(* ================================================================== *)
(** ** Beyond the claims: what lies around the tags *)

Lemma lang_has_lit re u c : lang re u -> In (Lit c) re -> In c u.
Proof.
  induction 1 as [|c' re u _ IH|ws re u Hws _ IH|x xs re u Hx Hxs _ IH
                 |k re u _ IH]; intros Hin.
  - destruct Hin.
  - destruct Hin as [[= ->]|Hin]; [left; auto|right; auto].
  - destruct Hin as [Hin|Hin]; [discriminate|]. apply in_or_app; auto.
  - destruct Hin as [Hin|Hin]; [discriminate|].
    right. apply in_or_app; auto.
  - destruct Hin as [Hin|Hin]; [discriminate|]. auto.
Qed.

(** A pattern with a literal fails on a text without that character. *)
Lemma m_needs re c s i mk :
  In (Lit c) re -> ~ In c s -> m re s i mk = None.
Proof.
  intros Hre Hs. destruct (m re s i mk) as [[j mk']|] eqn:E; auto.
  apply m_sound in E as (u & r & -> & _ & HL). exfalso.
  apply Hs, in_or_app. left. eapply lang_has_lit; eauto.
Qed.

Section Cut.

Variables (c : char) (post : text).
Hypothesis Hpost : ~ In c post.

Lemma lazy_more_cut p k :
  (forall s i mk, k (s ++ post) i mk = k s i mk) ->
  (forall s i mk, ~ In c s -> k s i mk = None) ->
  forall s i mk, lazy_more p k (s ++ post) i mk = lazy_more p k s i mk.
Proof.
  intros H1 H2.
  assert (forall b i mk, ~ In c b -> lazy_more p k b i mk = None) as Hnone.
  { induction b as [|x b IHb]; intros i mk Hb; rewrite lazy_more_eq, H2; auto.
    destruct (p x); auto. apply IHb. intros ?; apply Hb; right; auto. }
  induction s as [|x s IH]; intros i mk.
  - simpl app. rewrite Hnone by auto. rewrite lazy_more_eq, H2; auto.
  - rewrite (lazy_more_eq p k (x :: s)), lazy_more_eq. simpl app.
    rewrite (H1 (x :: s)). destruct (k (x :: s) i mk); auto.
    destruct (p x); auto.
Qed.

(** A pattern that ends with the literal [c] does not look at a tail of the
    text that has no [c]. *)
Lemma m_cut re0 :
  forall s i mk,
    m (re0 ++ [Lit c]) (s ++ post) i mk = m (re0 ++ [Lit c]) s i mk.
Proof.
  induction re0 as [|[c'| | |k] re0 IH]; intros s i mk; cbn [app].
  - destruct s as [|x s]; simpl; [|destruct (x =? c)%N; reflexivity].
    destruct post as [|y post']; auto.
    destruct (N.eqb_spec y c) as [->|]; auto. destruct Hpost; left; auto.
  - destruct s as [|x s].
    + simpl app. rewrite (m_needs _ c post); [reflexivity| |exact Hpost].
      right. apply in_or_app; right; left; auto.
    + simpl. destruct (x =? c')%N; auto.
  - apply lazy_more_cut; auto.
    intros s' i' mk' Hs'. apply (m_needs _ c); auto.
    apply in_or_app; right; left; auto.
  - destruct s as [|x s].
    + simpl app. rewrite (m_needs _ c post); [reflexivity| |exact Hpost].
      right. apply in_or_app; right; left; auto.
    + simpl app. rewrite !m_any. destruct (is_any x); auto.
      apply lazy_more_cut; auto.
      intros s' i' mk' Hs'. apply (m_needs _ c); auto.
      apply in_or_app; right; left; auto.
  - rewrite !m_mark. apply IH.
Qed.

Lemma sub_from_cut re0 k s :
  k <= length s ->
  sub_from (re0 ++ [Lit c]) convert_to_match k (s ++ post)
  = sub_from (re0 ++ [Lit c]) convert_to_match k s ++ post.
Proof.
  assert (forall b, ~ In c b -> match_at (re0 ++ [Lit c]) b = None) as Hnone.
  { intros b Hb. unfold match_at. rewrite (m_needs _ c); auto.
    apply in_or_app; right; left; auto. }
  revert k; induction s as [|x s IH]; intros k Hk.
  - simpl in Hk. destruct k; [|lia]. simpl app.
    change (sub_from (re0 ++ [Lit c]) convert_to_match 0 post)
      with (re_sub (re0 ++ [Lit c]) convert_to_match post).
    rewrite re_sub_id.
    + simpl. rewrite Hnone; auto.
    + intros a b ->. apply Hnone. intros ?; apply Hpost, in_or_app; auto.
  - destruct k as [|k]; [|simpl; apply IH; simpl in Hk; lia].
    simpl app. simpl sub_from. unfold match_at.
    change (x :: s ++ post) with ((x :: s) ++ post). rewrite m_cut.
    destruct (m (re0 ++ [Lit c]) (x :: s) 0 no_marks) as [[j mk]|] eqn:E.
    + pose proof E as (_ & Hj & [Ha Hb])%m_bounded; auto using marks_le_none.
      assert (convert_to_match (MatchObj ((x :: s) ++ post) j mk)
              = convert_to_match (MatchObj (x :: s) j mk)) as ->.
      { unfold convert_to_match, group1; cbn [mo_marks mo_string].
        destruct mk as [[a|] [b|]]; auto.
        specialize (Ha a eq_refl). specialize (Hb b eq_refl). simpl in Ha, Hb.
        rewrite !take_drop_commute. f_equal.
        rewrite take_app_le; auto. lia. }
      cbn [mo_end]. destruct j as [|j].
      * rewrite <- app_assoc. simpl. rewrite (IH 0) by lia. reflexivity.
      * rewrite <- app_assoc. rewrite IH; [reflexivity|]. simpl in Hj. lia.
    + simpl. rewrite (IH 0) by lia. reflexivity.
Qed.

End Cut.

Lemma cref_regex_last prefix :
  exists re0, cref_regex prefix = re0 ++ [Lit 62%N].
Proof. unfold cref_regex. eexists. rewrite !app_assoc. reflexivity. Qed.

Lemma re_sub_cut prefix s post :
  forallb not_gt post = true ->
  re_sub (cref_regex prefix) convert_to_match (s ++ post)
  = re_sub (cref_regex prefix) convert_to_match s ++ post.
Proof.
  intros Hp. destruct (cref_regex_last prefix) as [re0 ->].
  apply sub_from_cut; [|lia].
  rewrite forallb_forall in Hp. intros Hin. apply Hp in Hin. discriminate.
Qed.

Lemma rewrite_around pre s post :
  forallb not_lt pre = true -> forallb not_gt post = true ->
  rewrite (pre ++ s ++ post) = pre ++ rewrite s ++ post.
Proof.
  intros Hpre Hpost. rewrite !rewrite_eq.
  rewrite (re_sub_skip_not_lt "SadRogue" _ pre) by auto.
  rewrite (re_sub_cut "SadRogue" s post) by auto.
  rewrite (re_sub_skip_not_lt "Troschuetz" _ pre) by auto.
  rewrite (re_sub_cut "Troschuetz" _ post) by auto. reflexivity.
Qed.

(** X15.  The text before the first [<] and the text after the last [>] are
    kept as they are and do not influence what happens in between. *)
Theorem rewrite_frame (pre s post : text) :
  forallb not_lt pre = true -> forallb not_gt post = true ->
  rewrite (pre ++ s ++ post) = pre ++ rewrite s ++ post.
Proof. apply rewrite_around. Qed.

Lemma rewrite_frame_witness :
  rewrite (str "/// See also: " ++ (foo_bar_tag ++ str " or " ++ nested_tag_text)
           ++ str ". <Done")
  = str "/// See also: " ++ rewrite (foo_bar_tag ++ str " or " ++ nested_tag_text)
    ++ str ". <Done".
Proof.
  apply (rewrite_frame (str "/// See also: ")
           (foo_bar_tag ++ str " or " ++ nested_tag_text) (str ". <Done"));
    reflexivity.
Defined.

(* ================================================================== *)
(** ** Beyond the claims: how much a replacement takes away *)

(** X16.  A text that the loop changes gets at least thirteen characters
    shorter: every replacement drops the opener up to the first quote and
    the closing of the tag. *)
Theorem rewrite_unchanged_or_shorter (t : text) :
  rewrite t = t \/ length (rewrite t) + 13 <= length t.
Proof. apply rewrite_shorter. Qed.
